(** * Hare: a client layer over an AMQP transport

    A shallow embedding of [connection.py], [publisher.py], [consumer.py]
    and [consumer_process.py], with the properties of the connection
    registry (identity map and retain counts), of the single-slot message
    handoff inside [Consumer.message_iterator] and of the worker loop
    [ConsumerProcess.run].

    Python values are modelled by the inductive [value]; dictionaries with
    string keys by [gmap string value]; the class-level registry
    [_active_connections] by a [gmap] from signatures to entries; objects
    with identity (physical connections, channels) by their index in an
    allocation-ordered heap; exceptions by the error monad [res]. *)

From Stdlib Require Import OrderedTypeEx.
From stdpp Require Import gmap strings list fin_maps sorting.

Set Warnings "-clear-no-such-hyp".

Local Open Scope string_scope.
Local Open Scope list_scope.
Local Open Scope Z_scope.

(** ** Python values and exceptions *)

Inductive value :=
  | VNone
  | VBool (b : bool)
  | VInt (z : Z)
  | VStr (s : string).

#[export] Instance value_eq_dec : EqDecision value.
Proof. solve_decision. Defined.

Definition value_encode (v : value) : unit + bool + Z + string :=
  match v with
  | VNone => inl (inl (inl tt))
  | VBool b => inl (inl (inr b))
  | VInt z => inl (inr z)
  | VStr s => inr s
  end.

Definition value_decode (x : unit + bool + Z + string) : value :=
  match x with
  | inl (inl (inl _)) => VNone
  | inl (inl (inr b)) => VBool b
  | inl (inr z) => VInt z
  | inr s => VStr s
  end.

#[export] Instance value_countable : Countable value.
Proof.
  apply (inj_countable' value_encode value_decode).
  by intros [].
Defined.

(** [x is not None] *)
Definition is_not_None (v : value) : bool :=
  match v with VNone => false | _ => true end.

Inductive exn :=
  | KeyError
  | ValueError
  | AttributeError
  | AssertionError
  | NotImplementedError
  | StopIteration
  | GeneratorExit
  | OtherError (name : string).

#[export] Instance exn_eq_dec : EqDecision exn.
Proof. solve_decision. Defined.

(** The result of a call that may raise. *)
Inductive res (A : Type) :=
  | Ok (a : A)
  | Raise (e : exn).
Arguments Ok {A} a.
Arguments Raise {A} e.

#[export] Instance res_ret : MRet res := @Ok.
#[export] Instance res_bind : MBind res := λ A B k r,
  match r with
  | Ok a => k a
  | Raise e => Raise e
  end.

(** ** Settings (django.conf.settings)

    Every attribute is read with [getattr(settings, name, default)], so an
    attribute may be missing. *)

Record settings := {
  ENABLE_MQ : option bool;
  AMQP_HOST : option value;
  AMQP_USER : option value;
  AMQP_PASSWORD : option value;
  AMQP_VHOST : option value;
}.

(** A settings module that sets [ENABLE_MQ = True] and nothing else. *)
Definition settings_default : settings :=
  {| ENABLE_MQ := Some true; AMQP_HOST := None; AMQP_USER := None;
     AMQP_PASSWORD := None; AMQP_VHOST := None |}.

(** [getattr(settings, name, default)] *)
Definition getattr {A} (attr : option A) (dflt : A) : A :=
  default dflt attr.

(** ** Python built-ins used by the code *)

(** [d.pop(key, default)] *)
Definition pop (key : string) (dflt : value) (d : gmap string value)
    : value * gmap string value :=
  (default dflt (d !! key), delete key d).

(** [d.setdefault(key, v)] *)
Definition setdefault (key : string) (v : value) (d : gmap string value)
    : gmap string value :=
  match d !! key with
  | Some _ => d
  | None => <[key := v]> d
  end.

(** [l.remove(x)]: drops the first occurrence, [ValueError] when there is
    none. *)
Fixpoint list_remove_first (x : string) (l : list string) : res (list string) :=
  match l with
  | [] => Raise ValueError
  | y :: l' =>
      if decide (x = y) then Ok l'
      else l'' ← list_remove_first x l'; Ok (y :: l'')
  end.

(** [cmp(x[0], y[0])] on the items of a dictionary. *)
Definition cmp_key (x y : string * value) : comparison :=
  String.compare x.1 y.1.

(** [sorted(items, cmp)]: a stable sort; an item goes in front of the first
    item that does not compare smaller. *)
Fixpoint sorted_insert (cmp : string * value → string * value → comparison)
    (x : string * value) (l : list (string * value)) : list (string * value) :=
  match l with
  | [] => [x]
  | y :: l' =>
      match cmp x y with
      | Gt => y :: sorted_insert cmp x l'
      | _ => x :: y :: l'
      end
  end.

Definition sorted (cmp : string * value → string * value → comparison)
    (items : list (string * value)) : list (string * value) :=
  foldr (sorted_insert cmp) [] items.

(** The order [cmp_key] sorts by, as a relation on items. *)
Definition key_lt (x y : string * value) : Prop := cmp_key x y = Lt.


(** ** The transport (amqplib), seen from this layer

    Physical connections and channels are objects: each one is identified
    by its position in the order of creation. The transport records the
    methods this layer invokes on channels, in the order of the calls. *)

(** A connection signature is a tuple of 2-tuples; it is hashable, so it
    can key the registry. *)
Definition signature := list (string * value).

Record Message := {
  body : value;
  properties : gmap string value;
  delivery_tag : option Z;
}.

Inductive chan_call :=
  | queue_declare (kw : gmap string value)
  | queue_bind (kw : gmap string value)
  | queue_delete (queue : string)
  | exchange_declare (exchange : string) (kw : gmap string value)
  | exchange_delete (exchange : string)
  | basic_ack (tag : Z)
  | basic_consume (queue : string) (no_ack : bool)
  | basic_cancel (consumer_tag : string)
  | basic_publish (msg : Message) (kw : gmap string value)
  | channel_close.

(** The object [amqp.Connection] builds: the parameters it was opened with
    and the number of times its [close()] was invoked. *)
Record PhysicalConnection := {
  conn_params : signature;
  conn_close_calls : nat;
}.

(** The process-wide state: the class attributes
    [AMQPConnection._active_connections], [Consumer._declared_queues] and
    [Publisher._declared_exchanges], and the transport's objects. An entry
    of the registry is the Python list [[retain_count, connection]];
    a channel object is known by the connection it belongs to. *)
Record world := {
  _active_connections : gmap signature (Z * nat);
  connections : list PhysicalConnection;
  channels : list nat;
  calls : list (nat * chan_call);
  _declared_queues : list string;
  _declared_exchanges : list string;
}.

Definition initial_world : world :=
  {| _active_connections := ∅; connections := []; channels := []; calls := [];
     _declared_queues := []; _declared_exchanges := [] |}.

Definition set_active (r : gmap signature (Z * nat)) (w : world) : world :=
  {| _active_connections := r; connections := connections w;
     channels := channels w; calls := calls w;
     _declared_queues := _declared_queues w;
     _declared_exchanges := _declared_exchanges w |}.

Definition set_connections (cs : list PhysicalConnection) (w : world) : world :=
  {| _active_connections := _active_connections w; connections := cs;
     channels := channels w; calls := calls w;
     _declared_queues := _declared_queues w;
     _declared_exchanges := _declared_exchanges w |}.

Definition set_channels (chs : list nat) (w : world) : world :=
  {| _active_connections := _active_connections w; connections := connections w;
     channels := chs; calls := calls w;
     _declared_queues := _declared_queues w;
     _declared_exchanges := _declared_exchanges w |}.

Definition set_calls (cl : list (nat * chan_call)) (w : world) : world :=
  {| _active_connections := _active_connections w; connections := connections w;
     channels := channels w; calls := cl;
     _declared_queues := _declared_queues w;
     _declared_exchanges := _declared_exchanges w |}.

Definition set_declared_queues (qs : list string) (w : world) : world :=
  {| _active_connections := _active_connections w; connections := connections w;
     channels := channels w; calls := calls w; _declared_queues := qs;
     _declared_exchanges := _declared_exchanges w |}.

Definition set_declared_exchanges (xs : list string) (w : world) : world :=
  {| _active_connections := _active_connections w; connections := connections w;
     channels := channels w; calls := calls w;
     _declared_queues := _declared_queues w; _declared_exchanges := xs |}.

(** [connection.close()] on a physical connection. *)
Definition physical_close (c : nat) (w : world) : world :=
  set_connections
    (alter (λ pc, {| conn_params := conn_params pc;
                     conn_close_calls := S (conn_close_calls pc) |}) c (connections w)) w.

(** The number of times [close()] was invoked on physical connection [c]. *)
Definition close_calls (c : nat) (w : world) : option nat :=
  conn_close_calls <$> connections w !! c.

(** A method invoked on a channel object. *)
Definition channel_call (ch : nat) (call : chan_call) (w : world) : world :=
  set_calls (calls w ++ [(ch, call)]) w.

(** A method invoked on [self.channel], which is [None] when messaging is
    disabled. *)
Definition on_channel (ch : option nat) (call : chan_call) (w : world) : res world :=
  match ch with
  | Some c => Ok (channel_call c call w)
  | None => Raise AttributeError
  end.

(** ** connection.py *)

Module AMQPConnection.

(** The five named parameters of [_connection_signature]; what is left
    of the keywords is its [**kwargs]. *)
Definition named_parameters : list string :=
  ["host"; "user"; "password"; "vhost"; "insist"].

Definition extra_kwargs (kw : gmap string value) : gmap string value :=
  foldr delete kw named_parameters.

(** A named parameter takes its default when the keyword is not
    supplied. *)
Definition parameter (kw : gmap string value) (name : string) (dflt : value) : value :=
  default dflt (kw !! name).

(** [x if x is not None else getattr(settings, name, fallback)] *)
Definition or_setting (x : value) (attr : option value) (fallback : value) : value :=
  if is_not_None x then x else getattr attr fallback.

(** What the named parameters are worth once the settings have filled
    them in. *)
Definition effective_host (s : settings) (kw : gmap string value) : value :=
  or_setting (parameter kw "host" VNone) (AMQP_HOST s) (VStr "localhost:5672").
Definition effective_user (s : settings) (kw : gmap string value) : value :=
  or_setting (parameter kw "user" VNone) (AMQP_USER s) (VStr "guest").
Definition effective_password (s : settings) (kw : gmap string value) : value :=
  or_setting (parameter kw "password" VNone) (AMQP_PASSWORD s) (VStr "guest").
Definition effective_vhost (s : settings) (kw : gmap string value) : value :=
  or_setting (parameter kw "vhost" VNone) (AMQP_VHOST s) (VStr "/").
Definition effective_insist (kw : gmap string value) : value :=
  parameter kw "insist" (VBool false).

(** The dictionary [kwargs] after [kwargs.update({...})]. *)
Definition normalized_kwargs (s : settings) (kw : gmap string value)
    : gmap string value :=
  let host := effective_host s kw in
  let user := effective_user s kw in
  let password := effective_password s kw in
  let vhost := effective_vhost s kw in
  let insist := effective_insist kw in
  let kwargs := extra_kwargs kw in
  <["insist" := insist]> (<["virtual_host" := vhost]> (<["password" := password]>
    (<["userid" := user]> (<["host" := host]> kwargs)))).

Definition _connection_signature (s : settings) (kw : gmap string value) : signature :=
  sorted cmp_key (map_to_list (normalized_kwargs s kw)).

(** An instance. [_channel] is the attribute cached by the [channel]
    property: absent until the first access. *)
Record t := {
  connection_signature : signature;
  connection : option nat;
  enabled : bool;
  _channels : list nat;
  _channel : option (option nat);
}.

Definition __init__ (s : settings) (kw : gmap string value) (w : world) : t * world :=
  let sig := _connection_signature s kw in
  if getattr (ENABLE_MQ s) false then
    let w1 :=
      match _active_connections w !! sig with
      | None =>
          let c := length (connections w) in
          let w' := set_connections
            (connections w ++ [{| conn_params := sig; conn_close_calls := 0 |}]) w in
          set_active (<[sig := (1, c)]> (_active_connections w')) w'
      | Some (n, c) =>
          set_active (<[sig := (n + 1, c)]> (_active_connections w)) w
      end in
    ({| connection_signature := sig;
        connection := snd <$> (_active_connections w1 !! sig);
        enabled := true; _channels := []; _channel := None |}, w1)
  else
    ({| connection_signature := sig; connection := None;
        enabled := false; _channels := []; _channel := None |}, w).

(** [for channel in self._channels: channel.close()] *)
Definition close_channels (chs : list nat) (w : world) : world :=
  foldl (λ w ch, channel_call ch channel_close w) w chs.

Definition close (self : t) (w : world) : res world :=
  let w := close_channels (_channels self) w in
  if enabled self then
    let sig := connection_signature self in
    match _active_connections w !! sig with
    | None => Raise KeyError
    | Some (n, c) =>
        let w := set_active (<[sig := (n - 1, c)]> (_active_connections w)) w in
        if n - 1 <=? 0 then
          match connection self with
          | None => Raise AttributeError
          | Some c' =>
              let w := physical_close c' w in
              Ok (set_active (delete sig (_active_connections w)) w)
          end
        else Ok w
    end
  else Ok w.

Definition new_channel (self : t) (w : world) : res (option nat * t * world) :=
  if enabled self then
    match connection self with
    | None => Raise AttributeError
    | Some c =>
        let ch := length (channels w) in
        let w := set_channels (channels w ++ [c]) w in
        Ok (Some ch,
            {| connection_signature := connection_signature self;
               connection := connection self; enabled := enabled self;
               _channels := _channels self ++ [ch];
               _channel := _channel self |}, w)
    end
  else Ok (None, self, w).

(** The [channel] property. *)
Definition channel (self : t) (w : world) : res (option nat * t * world) :=
  match _channel self with
  | None =>
      '(ch, self, w) ← new_channel self w;
      Ok (ch, {| connection_signature := connection_signature self;
                 connection := connection self; enabled := enabled self;
                 _channels := _channels self; _channel := Some ch |}, w)
  | Some ch => Ok (ch, self, w)
  end.

(** Handles built one after the other, as in [tests/identity_map.py]. *)
Fixpoint construct_all (s : settings) (kws : list (gmap string value)) (w : world)
    : list t * world :=
  match kws with
  | [] => ([], w)
  | kw :: kws =>
      let '(h, w) := __init__ s kw w in
      let '(hs, w) := construct_all s kws w in
      (h :: hs, w)
  end.

(** Handles released one after the other. *)
Fixpoint close_all (hs : list t) (w : world) : res world :=
  match hs with
  | [] => Ok w
  | h :: hs => w ← close h w; close_all hs w
  end.

(** [__eq__]. [other] may be any object: what matters is
    [getattr(other, 'connection_signature', None)], absent or [None] for an
    object that is not a handle. *)
Definition __eq__ (self : t) (other_signature : option signature) : bool :=
  bool_decide (Some (connection_signature self) = other_signature).

(** [n] calls of [new_channel()] on a handle, one after the other. *)
Fixpoint new_channels (n : nat) (self : t) (w : world) : res (t * world) :=
  match n with
  | O => Ok (self, w)
  | S n => '(_, self, w) ← new_channel self w; new_channels n self w
  end.

End AMQPConnection.

(** ** publisher.py *)

Module Publisher.

Record t := {
  exchange : string;
  connection : AMQPConnection.t;
  channel : option nat;
  routing_key : string;
}.

(** [Publisher.__init__]; [connection] and [channel] default to [None],
    in which case a handle is built with no arguments and its default
    channel is taken. *)
Definition __init__ (s : settings) (exchange : string)
    (connection : option AMQPConnection.t) (channel : option nat)
    (routing_key : string) (kwargs : gmap string value) (w : world)
    : res (t * world) :=
  let '(connection, w) :=
    match connection with
    | Some c => (c, w)
    | None => AMQPConnection.__init__ s ∅ w
    end in
  '(channel, connection, w) ←
    match channel with
    | Some ch => Ok (Some ch, connection, w)
    | None => AMQPConnection.channel connection w
    end;
  let self := {| exchange := exchange; connection := connection;
                 channel := channel; routing_key := routing_key |} in
  match channel with
  | Some ch =>
      if decide (exchange ∈ _declared_exchanges w) then Ok (self, w)
      else
        let kwargs := setdefault "durable" (VBool true) kwargs in
        let kwargs := setdefault "auto_delete" (VBool false) kwargs in
        let '(type, kwargs) := pop "exchange_type" (VStr "direct") kwargs in
        let kwargs := <["type" := type]> kwargs in
        let w := channel_call ch (exchange_declare exchange kwargs) w in
        Ok (self, set_declared_exchanges (_declared_exchanges w ++ [exchange]) w)
  | None => Ok (self, w)
  end.

Definition destroy_exchange (self : t) (w : world) : res world :=
  w ← on_channel (channel self) (exchange_delete (exchange self)) w;
  xs ← list_remove_first (exchange self) (_declared_exchanges w);
  Ok (set_declared_exchanges xs w).

(** [Publisher.encode]; [JSONPublisher] overrides it, so [basic_publish]
    takes the hook as an argument. *)
Definition encode (body : value) : value := body.

(** [basic_publish]; the value returned is the transport's. *)
Definition basic_publish (encode : value → value) (self : t) (body : value)
    (kwargs : gmap string value) (w : world) : res (value * world) :=
  match channel self with
  | None => Ok (VNone, w)
  | Some ch =>
      let '(exchange, kwargs) := pop "exchange" (VStr (exchange self)) kwargs in
      let '(routing_key, kwargs) := pop "routing_key" (VStr (routing_key self)) kwargs in
      let '(mandatory, kwargs) := pop "mandatory" (VBool false) kwargs in
      let '(immediate, kwargs) := pop "immediate" (VBool false) kwargs in
      let '(ticket, kwargs) := pop "ticket" VNone kwargs in
      let publisher_kwargs : gmap string value :=
        {[ "exchange" := exchange; "routing_key" := routing_key;
           "mandatory" := mandatory; "immediate" := immediate;
           "ticket" := ticket ]} in
      let kwargs := setdefault "delivery_mode" (VInt 2) kwargs in
      let body := encode body in
      let message := {| body := body; properties := kwargs;
                        delivery_tag := None |} in
      Ok (VNone, channel_call ch (basic_publish message publisher_kwargs) w)
  end.

End Publisher.

(** ** consumer.py *)

Module Consumer.

Record t := {
  queue : string;
  exchange : option string;
  routing_key : option string;
  connection : AMQPConnection.t;
  channel : option nat;
}.

(** [Consumer.__init__]. The keyword [nowait] and the keyword [ticket]
    are popped for the declaration, so the binding always sees their
    defaults. *)
Definition __init__ (s : settings) (queue : string)
    (exchange routing_key : option string)
    (connection : option AMQPConnection.t) (channel : option nat)
    (force_no_declare : bool) (kwargs : gmap string value) (w : world)
    : res (t * world) :=
  let '(connection, w) :=
    match connection with
    | Some c => (c, w)
    | None => AMQPConnection.__init__ s ∅ w
    end in
  '(channel, connection, w) ←
    match channel with
    | Some ch => Ok (Some ch, connection, w)
    | None => AMQPConnection.channel connection w
    end;
  let self := {| queue := queue; exchange := exchange;
                 routing_key := routing_key; connection := connection;
                 channel := channel |} in
  if decide (queue ∈ _declared_queues w) then Ok (self, w)
  else
    w ← (if force_no_declare then Ok w
         else
           match exchange with
           | None => Raise AssertionError
           | Some exchange =>
               let '(passive, kwargs) := pop "passive" (VBool false) kwargs in
               let '(durable, kwargs) := pop "durable" (VBool true) kwargs in
               let '(exclusive, kwargs) := pop "exclusive" (VBool false) kwargs in
               let '(auto_delete, kwargs) := pop "auto_delete" (VBool false) kwargs in
               let '(nowait, kwargs) := pop "nowait" (VBool false) kwargs in
               let '(arguments, kwargs) := pop "queue_arguments" VNone kwargs in
               let '(ticket, kwargs) := pop "ticket" VNone kwargs in
               let queue_kwargs : gmap string value :=
                 {[ "queue" := VStr queue; "passive" := passive;
                    "durable" := durable; "exclusive" := exclusive;
                    "auto_delete" := auto_delete; "nowait" := nowait;
                    "arguments" := arguments; "ticket" := ticket ]} in
               w ← on_channel channel (queue_declare queue_kwargs) w;
               let '(nowait, kwargs) := pop "nowait" (VBool false) kwargs in
               let '(arguments, kwargs) := pop "bind_arguments" VNone kwargs in
               let '(ticket, kwargs) := pop "ticket" VNone kwargs in
               let bind_kwargs : gmap string value :=
                 {[ "queue" := VStr queue; "exchange" := VStr exchange;
                    "routing_key" := VStr (default "" routing_key);
                    "nowait" := nowait; "arguments" := arguments;
                    "ticket" := ticket ]} in
               on_channel channel (queue_bind bind_kwargs) w
           end);
    Ok (self, set_declared_queues (_declared_queues w ++ [queue]) w).

Definition destroy_queue (self : t) (w : world) : res world :=
  w ← on_channel (channel self) (queue_delete (queue self)) w;
  qs ← list_remove_first (queue self) (_declared_queues w);
  Ok (set_declared_queues qs w).

(** [Consumer.decode], the hook of the base class. *)
Definition decode (message : Message) : res Message := Ok message.

(** [JSONConsumer.decode], over the JSON parser [loads]. *)
Definition JSON_decode (loads : value → res value) (message : Message) : res Message :=
  b ← loads (body message);
  Ok {| body := b; properties := properties message;
        delivery_tag := delivery_tag message |}.

Definition acknowledge (self : t) (message : Message) (w : world) : res world :=
  match delivery_tag message with
  | Some tag => on_channel (channel self) (basic_ack tag) w
  | None => Raise AttributeError
  end.

(** *** message_iterator

    The generator is a machine that the consumer's thread drives: it runs
    from one program point to the next, and [channel.wait()] is the only
    place where the transport invokes the callback, synchronously, on the
    next frame received for the channel. *)

(** What [channel.wait()] finds: a delivery for this subscription, some
    other method, or a failure of the transport (the call raises). *)
Inductive frame :=
| Delivery (message : Message)
| Method
| Failure (e : exn).

(** The threading objects of one call: [event_lock] (held or not), the
    events [message_available] and [waiting] (set or not), and the
    attribute [message_available.result] (absent after [del]). *)
Record handoff := {
  event_lock : bool;
  message_available : bool;
  result : option Message;
  waiting : bool;
}.

(** The objects as created: the lock free, [waiting] set. *)
Definition fresh_handoff : handoff :=
  {| event_lock := false; message_available := false; result := None;
     waiting := true |}.

(** [FakeCallback(message)], run to completion: [None] when it cannot
    complete, because the lock is held by the generator or because
    [waiting.wait()] does not return. *)
Definition FakeCallback (message : Message) (h : handoff) : option handoff :=
  if event_lock h then None
  else if waiting h then
    Some {| event_lock := false; message_available := true;
            result := Some message; waiting := waiting h |}
  else None.

(** [with event_lock: waiting.clear()] *)
Definition acquire_and_clear (h : handoff) : handoff :=
  {| event_lock := true; message_available := message_available h;
     result := result h; waiting := false |}.

(** Leaving the [with] block on an exception. *)
Definition release (h : handoff) : handoff :=
  {| event_lock := false; message_available := message_available h;
     result := result h; waiting := waiting h |}.

(** The program points at which the generator rests: before its first
    statement, at the head of the loop, inside [channel.wait()], at the
    test of [message_available], at the [yield], and after its end. *)
Inductive position :=
| NotStarted
| LoopHead
| Waiting
| Check
| Suspended
| Finished.

(** The arguments of the call and the tag [basic_consume] returns. *)
Record iterator_args := {
  it_queue : string;
  no_ack : bool;
  limit : option Z;
  tag : string;
}.

(** A generator: its program point, its local state, the frames the
    transport has received and not yet handled, and the calls the
    generator made on [self.channel]. *)
Record iterator := {
  pc : position;
  sync : handoff;
  iterations : Z;
  inbox : list frame;
  channel_calls : list chan_call;
}.

Definition set_pc (p : position) (it : iterator) : iterator :=
  {| pc := p; sync := sync it; iterations := iterations it;
     inbox := inbox it; channel_calls := channel_calls it |}.

Definition set_sync (h : handoff) (it : iterator) : iterator :=
  {| pc := pc it; sync := h; iterations := iterations it;
     inbox := inbox it; channel_calls := channel_calls it |}.

Definition set_iterations (n : Z) (it : iterator) : iterator :=
  {| pc := pc it; sync := sync it; iterations := n;
     inbox := inbox it; channel_calls := channel_calls it |}.

Definition set_inbox (fs : list frame) (it : iterator) : iterator :=
  {| pc := pc it; sync := sync it; iterations := iterations it;
     inbox := fs; channel_calls := channel_calls it |}.

Definition call (c : chan_call) (it : iterator) : iterator :=
  {| pc := pc it; sync := sync it; iterations := iterations it;
     inbox := inbox it; channel_calls := channel_calls it ++ [c] |}.

(** [self.message_iterator(no_ack, limit)]: the generator object; none of
    its body has run. *)
Definition message_iterator : iterator :=
  {| pc := NotStarted; sync := fresh_handoff; iterations := 0; inbox := [];
     channel_calls := [] |}.

(** What a [next()] or a step of the body hands to the caller. *)
Inductive output :=
| Yield (message : Message)
| Stop
| Raised (e : exn).

(** The [finally] clause. *)
Definition cancel (a : iterator_args) (it : iterator) : iterator :=
  set_pc Finished (call (basic_cancel (tag a)) it).

(** An exception raised inside the [try]: [StopIteration] is caught and
    the generator returns; anything else propagates; the [finally] clause
    runs in both cases. *)
Definition raise_in_try (a : iterator_args) (e : exn) (it : iterator)
    : iterator * option output :=
  (cancel a it, Some (match e with StopIteration => Stop | _ => Raised e end)).

(** [limit is not None and iterations >= limit] *)
Definition limit_reached (limit : option Z) (iterations : Z) : bool :=
  match limit with
  | Some l => l <=? iterations
  | None => false
  end.

(** The generator runs to its next program point. A generator that is
    blocked (in [wait()] with nothing received, or on the lock) stays where
    it is. [decode] is the hook [self.decode]. *)
Definition step (decode : Message → res Message) (a : iterator_args) (it : iterator)
    : iterator * option output :=
  match pc it with
  | NotStarted =>
      (set_pc LoopHead (set_iterations 0 (set_sync fresh_handoff
         (call (basic_consume (it_queue a) (no_ack a)) it))), None)
  | LoopHead =>
      let it := set_iterations (iterations it + 1) it in
      if limit_reached (limit a) (iterations it) then raise_in_try a StopIteration it
      else (set_pc Waiting it, None)
  | Waiting =>
      match inbox it with
      | [] => (it, None)
      | Delivery message :: rest =>
          match FakeCallback message (sync it) with
          | Some h => (set_pc Check (set_sync h (set_inbox rest it)), None)
          | None => (it, None)
          end
      | Method :: rest => (set_pc Check (set_inbox rest it), None)
      | Failure e :: rest => raise_in_try a e (set_inbox rest it)
      end
  | Check =>
      if message_available (sync it) then
        if event_lock (sync it) then (it, None)
        else
          let h := acquire_and_clear (sync it) in
          match result h with
          | None => raise_in_try a AttributeError (set_sync (release h) it)
          | Some message =>
              match decode message with
              | Ok m => (set_pc Suspended (set_sync h it), Some (Yield m))
              | Raise e => raise_in_try a e (set_sync (release h) it)
              end
          end
      else (set_pc LoopHead it, None)
  | Suspended =>
      match result (sync it) with
      | None => raise_in_try a AttributeError (set_sync (release (sync it)) it)
      | Some _ => (set_pc LoopHead (set_sync fresh_handoff it), None)
      end
  | Finished => (it, Some Stop)
  end.

(** [generator.close()]: [GeneratorExit] is raised at the [yield]; the
    [with] block releases the lock and the [finally] clause runs. A
    generator that has not started just ends; one that is running cannot
    be closed by the thread that runs it. *)
Definition close_generator (a : iterator_args) (it : iterator) : iterator :=
  match pc it with
  | NotStarted => set_pc Finished it
  | Suspended => cancel a (set_sync (release (sync it)) it)
  | _ => it
  end.

(** What happens around a generator: the transport receives a frame, the
    consumer's thread advances the generator ([next()] when it rests at a
    [yield] or has not started), or the consumer closes it. *)
Inductive event :=
| Arrive (fr : frame)
| Step
| Close.

Definition handle (decode : Message → res Message) (a : iterator_args)
    (ev : event) (it : iterator) : iterator * option output :=
  match ev with
  | Arrive fr => (set_inbox (inbox it ++ [fr]) it, None)
  | Step => step decode a it
  | Close => (close_generator a it, None)
  end.

Fixpoint exec (decode : Message → res Message) (a : iterator_args)
    (evs : list event) (it : iterator) : iterator * list output :=
  match evs with
  | [] => (it, [])
  | ev :: evs =>
      let '(it, o) := handle decode a ev it in
      let '(it, os) := exec decode a evs it in
      (it, option_list o ++ os)
  end.

End Consumer.

(** ** consumer_process.py *)

Module ConsumerProcess.

(** What the loop does to the outside, in order: the transaction
    management of [utils/db.py], the log, the mail to the admins, and the
    acknowledgement of a message. *)
Inductive effect :=
| enter_transaction_management
| managed
| rollback
| commit
| leave_transaction_management
| logger_critical (tb : string)
| mail_admins (subject tb : string) (message : Message) (fault_tolerant : bool)
| logger_info (text : string)
| acknowledge (message : Message).

Section run.

(** The state the user's [process_message] works on, the method itself
    ([None]: it returned), [dj_transaction.is_dirty()], the rendering of a
    traceback, and the class attribute [auto_ack]. *)
Context {S : Type}.
Variable process_message : Message → S → option exn * S.
Variable is_dirty : S → bool.
Variable format_exc : exn → string.
Variable auto_ack : bool.

(** [with transaction(): block], of [utils/db.py]: commit on success, roll
    back and raise again on an exception. *)
Definition transaction (block : S → option exn * S) (st : S)
    : list effect * option exn * S :=
  let '(r, st) := block st in
  ([enter_transaction_management; managed] ++
   (if is_dirty st then [match r with None => commit | Some _ => rollback end] else []) ++
   [leave_transaction_management], r, st).

(** [ConsumerProcess.run], over the messages its iterator yields. The
    result is what was done, the state, and the exception that left the
    loop, if one did. *)
Fixpoint run (fault_tolerant : bool) (messages : list Message) (st : S)
    : list effect * S * option exn :=
  match messages with
  | [] => ([], st, None)
  | message :: rest =>
      let '(fx, r, st) := transaction (process_message message) st in
      match r with
      | Some NotImplementedError => (fx, st, Some NotImplementedError)
      | Some e =>
          let tb := format_exc e in
          let fx := fx ++ [logger_critical tb;
                           mail_admins "Queue worker error" tb message fault_tolerant;
                           logger_info "Traceback has been emailed with mail_admins()"] in
          if fault_tolerant then
            let '(fx', st, r) := run fault_tolerant rest st in (fx ++ fx', st, r)
          else (fx, st, Some e)
      | None =>
          let fx := fx ++ (if auto_ack then [acknowledge message] else []) in
          let '(fx', st, r) := run fault_tolerant rest st in (fx ++ fx', st, r)
      end
  end.

End run.

(** The failure was reported: logged and mailed. *)
Definition reported (fx : list effect) : Prop :=
  (∃ tb, logger_critical tb ∈ fx) ∧ (∃ subject tb m ft, mail_admins subject tb m ft ∈ fx).

(** Nothing was logged as critical and nothing was mailed. *)
Definition unreported (fx : list effect) : Prop :=
  (∀ tb, logger_critical tb ∉ fx) ∧ (∀ subject tb m ft, mail_admins subject tb m ft ∉ fx).

End ConsumerProcess.

(** ** The handoff, as seen from outside *)

(** The messages a run yielded. *)
Definition yields (outs : list Consumer.output) : list Message :=
  omap (λ o, match o with Consumer.Yield m => Some m | _ => None end) outs.

(** The deliveries among some frames. *)
Definition deliveries (frames : list Consumer.frame) : list Message :=
  omap (λ fr, match fr with Consumer.Delivery m => Some m | _ => None end) frames.



(** The messages delivered and not yet yielded: the one in the slot that
    the generator has not read, then those the transport holds. *)
Definition pending (it : Consumer.iterator) : list Message :=
  match Consumer.pc it, Consumer.result (Consumer.sync it) with
  | Consumer.Check, Some m => [m]
  | _, _ => []
  end ++ deliveries (Consumer.inbox it).

(** The events of a subscription that lasts: a message is delivered, some
    other method arrives, or the consumer's thread advances. *)
Inductive handoff_event :=
| Deliver (m : Message)
| Other
| Pull.

Definition to_event (ev : handoff_event) : Consumer.event :=
  match ev with
  | Deliver m => Consumer.Arrive (Consumer.Delivery m)
  | Other => Consumer.Arrive Consumer.Method
  | Pull => Consumer.Step
  end.


(** A call with no limit. *)
Definition unlimited (queue : string) (no_ack : bool) (tag : string)
    : Consumer.iterator_args :=
  {| Consumer.it_queue := queue; Consumer.no_ack := no_ack;
     Consumer.limit := None; Consumer.tag := tag |}.

(** A call with a limit. *)
Definition limited (queue : string) (no_ack : bool) (tag : string) (N : Z)
    : Consumer.iterator_args :=
  {| Consumer.it_queue := queue; Consumer.no_ack := no_ack;
     Consumer.limit := Some N; Consumer.tag := tag |}.

(** Sequencing what was done before with the rest of a run. *)
Definition prepend {S : Type} (fx : list ConsumerProcess.effect)
    (r : list ConsumerProcess.effect * S * option exn)
    : list ConsumerProcess.effect * S * option exn :=
  (fx ++ r.1.1, r.1.2, r.2).

(** What one pass through [transaction()] does around a block that ends
    in state [st] with result [r]. *)
Definition transaction_effects {S : Type} (is_dirty : S → bool) (r : option exn) (st : S)
    : list ConsumerProcess.effect :=
  [ConsumerProcess.enter_transaction_management; ConsumerProcess.managed] ++
  (if is_dirty st
   then [match r with None => ConsumerProcess.commit | Some _ => ConsumerProcess.rollback end]
   else []) ++
  [ConsumerProcess.leave_transaction_management].

(** What the handler of [run] does with a failure [e] on [message]. *)
Definition report_effects (format_exc : exn → string) (e : exn) (message : Message)
    (fault_tolerant : bool) : list ConsumerProcess.effect :=
  [ConsumerProcess.logger_critical (format_exc e);
   ConsumerProcess.mail_admins "Queue worker error" (format_exc e) message fault_tolerant;
   ConsumerProcess.logger_info "Traceback has been emailed with mail_admins()"].

(** Messages [m5] and [m6] of the scenario, a [process_message] that fails
    on [m5] only, and one that is not implemented for [m5]. *)
Definition m5 : Message :=
  {| body := VStr "m5"; properties := ∅; delivery_tag := Some 5 |}.
Definition m6 : Message :=
  {| body := VStr "m6"; properties := ∅; delivery_tag := Some 6 |}.

Definition fails_on_m5 (message : Message) (st : unit) : option exn * unit :=
  if decide (body message = VStr "m5") then (Some (OtherError "ValueError"), st)
  else (None, st).

Definition not_implemented_on_m5 (message : Message) (st : unit) : option exn * unit :=
  if decide (body message = VStr "m5") then (Some NotImplementedError, st)
  else (None, st).

Definition exn_name (e : exn) : string :=
  match e with
  | KeyError => "KeyError"
  | ValueError => "ValueError"
  | AttributeError => "AttributeError"
  | AssertionError => "AssertionError"
  | NotImplementedError => "NotImplementedError"
  | StopIteration => "StopIteration"
  | GeneratorExit => "GeneratorExit"
  | OtherError name => name
  end.

(** The slot holds [m], delivered and not yet read. *)
Definition occupied (m : Message) : Consumer.handoff :=
  {| Consumer.event_lock := false; Consumer.message_available := true;
     Consumer.result := Some m; Consumer.waiting := true |}.





(** A run with limit 2: [m5] arrives and is yielded, the consumer asks for
    the next message, and [m6] arrives too late. *)
Definition limit_two_events : list Consumer.event :=
  [Consumer.Arrive (Consumer.Delivery m5); Consumer.Step; Consumer.Step;
   Consumer.Step; Consumer.Step; Consumer.Step; Consumer.Step;
   Consumer.Arrive (Consumer.Delivery m6); Consumer.Step].

(** ** Counting the calls made on the transport *)

(** [call] declares, binds or deletes the queue named [q]. *)
Definition declares (q : string) (call : chan_call) : bool :=
  match call with
  | queue_declare kw => bool_decide (kw !! "queue" = Some (VStr q))
  | _ => false
  end.

Definition binds (q : string) (call : chan_call) : bool :=
  match call with
  | queue_bind kw => bool_decide (kw !! "queue" = Some (VStr q))
  | _ => false
  end.

Definition deletes (q : string) (call : chan_call) : bool :=
  match call with
  | queue_delete q' => bool_decide (q' = q)
  | _ => false
  end.

Definition count_calls (P : chan_call → bool) (w : world) : nat :=
  length (List.filter (λ c : nat * chan_call, P c.2) (calls w)).

(** [1] when [q] is not in the declared-queue list. *)
Definition unrecorded (q : string) (w : world) : nat :=
  if decide (q ∈ _declared_queues w) then 0%nat else 1%nat.

(** What a process does with consumers: it builds them and it destroys
    their queues. *)
Inductive consumer_op :=
  | new_consumer (queue : string) (exchange routing_key : option string)
      (connection : option AMQPConnection.t) (channel : option nat)
      (force_no_declare : bool) (kwargs : gmap string value)
  | destroy_queue (c : Consumer.t).

Definition run_op (s : settings) (op : consumer_op) (w : world) : res world :=
  match op with
  | new_consumer q ex rk conn ch force kw =>
      '(_, w) ← Consumer.__init__ s q ex rk conn ch force kw w; Ok w
  | destroy_queue c => Consumer.destroy_queue c w
  end.

Fixpoint run_ops (s : settings) (ops : list consumer_op) (w : world) : res world :=
  match ops with
  | [] => Ok w
  | op :: ops => w ← run_op s op w; run_ops s ops w
  end.

Definition is_Ok {A} (r : res A) : bool :=
  match r with Ok _ => true | Raise _ => false end.

(** A consumer of queue ["q"] on channel 0, as built by
    [Consumer("q", exchange="e")] in a fresh process. *)
Definition consumer_q : Consumer.t :=
  {| Consumer.queue := "q"; Consumer.exchange := Some "e";
     Consumer.routing_key := None;
     Consumer.connection :=
       {| AMQPConnection.connection_signature :=
            AMQPConnection._connection_signature settings_default ∅;
          AMQPConnection.connection := Some 0%nat;
          AMQPConnection.enabled := true;
          AMQPConnection._channels := [0%nat];
          AMQPConnection._channel := Some (Some 0%nat) |};
     Consumer.channel := Some 0%nat |}.

(** What [tests/communication.py] does to its queue over two tests: each
    [setUp] builds the consumer and each [tearDown] destroys the queue. *)
Definition two_tests : list consumer_op :=
  [ new_consumer "q" (Some "e") None None None false ∅;
    destroy_queue consumer_q;
    new_consumer "q" (Some "e") None None None false ∅;
    destroy_queue consumer_q ].

(** ** Invariants of the registry *)

(** Every entry of the registry points at a physical connection that was
    opened with the entry's signature. *)
Definition registry_wf (w : world) : Prop :=
  ∀ sig n c, _active_connections w !! sig = Some (n, c) →
    conn_params <$> connections w !! c = Some sig.

(** Handle [h] is enabled and holds physical connection [c] under
    signature [sig]. *)
Definition shares (sig : signature) (c : nat) (h : AMQPConnection.t) : Prop :=
  AMQPConnection.enabled h = true ∧
  AMQPConnection.connection_signature h = sig ∧
  AMQPConnection.connection h = Some c.

(** Handle [h] holds the connection of its signature's entry. *)
Definition registered (w : world) (h : AMQPConnection.t) : Prop :=
  ∃ n c, _active_connections w !! AMQPConnection.connection_signature h = Some (n, c) ∧
         AMQPConnection.connection h = Some c.

(** A handle built while messaging is disabled, before or after its
    [channel] property was read. *)
Definition disabled_handle (h : AMQPConnection.t) : Prop :=
  AMQPConnection.enabled h = false ∧ AMQPConnection.connection h = None ∧
  AMQPConnection._channels h = [] ∧
  (AMQPConnection._channel h = None ∨ AMQPConnection._channel h = Some None).

(** A settings module without [ENABLE_MQ]. *)
Definition settings_disabled : settings :=
  {| ENABLE_MQ := None; AMQP_HOST := None; AMQP_USER := None;
     AMQP_PASSWORD := None; AMQP_VHOST := None |}.

(** The keyword arguments of the four constructions of
    [tests/identity_map.py]. *)
Definition test_connection_kwargs : list (gmap string value) :=
  [ {["host" := VStr "localhost:5672"]}; {["host" := VStr "localhost:5672"]};
    {["host" := VStr "127.0.0.1:5672"]}; {["host" := VStr "127.0.0.1:5672"]} ].

(** ** A process and its handles

    What a program does with connection handles: it builds one, opens a
    channel through one, reads the default channel of one, or closes one.
    Handles are named by their rank of creation; with each one is kept the
    number of times it was closed. An operation on a handle that was never
    built is no operation. *)

Inductive handle_op :=
| open_handle (kw : gmap string value)
| open_channel (i : nat)
| default_channel (i : nat)
| close_handle (i : nat).

Record process := {
  proc_world : world;
  proc_handles : list (AMQPConnection.t * nat);
}.

Definition initial_process : process :=
  {| proc_world := initial_world; proc_handles := [] |}.

Definition handle_step (s : settings) (op : handle_op) (p : process) : res process :=
  match op with
  | open_handle kw =>
      let '(h, w) := AMQPConnection.__init__ s kw (proc_world p) in
      Ok {| proc_world := w; proc_handles := proc_handles p ++ [(h, 0%nat)] |}
  | open_channel i =>
      match proc_handles p !! i with
      | Some (h, k) =>
          '(_, h, w) ← AMQPConnection.new_channel h (proc_world p);
          Ok {| proc_world := w; proc_handles := <[i := (h, k)]> (proc_handles p) |}
      | None => Ok p
      end
  | default_channel i =>
      match proc_handles p !! i with
      | Some (h, k) =>
          '(_, h, w) ← AMQPConnection.channel h (proc_world p);
          Ok {| proc_world := w; proc_handles := <[i := (h, k)]> (proc_handles p) |}
      | None => Ok p
      end
  | close_handle i =>
      match proc_handles p !! i with
      | Some (h, k) =>
          w ← AMQPConnection.close h (proc_world p);
          Ok {| proc_world := w; proc_handles := <[i := (h, S k)]> (proc_handles p) |}
      | None => Ok p
      end
  end.

Fixpoint handle_steps (s : settings) (ops : list handle_op) (p : process) : res process :=
  match ops with
  | [] => Ok p
  | op :: ops => p ← handle_step s op p; handle_steps s ops p
  end.

(** The handles a run closes, in order. *)
Definition closes (ops : list handle_op) : list nat :=
  omap (λ op, match op with close_handle i => Some i | _ => None end) ops.

(** The handles of signature [sig] that were not closed. *)
Definition outstanding (sig : signature) (hs : list (AMQPConnection.t * nat)) : nat :=
  length (filter (λ hk : AMQPConnection.t * nat,
                    hk.2 = 0%nat ∧ AMQPConnection.connection_signature hk.1 = sig) hs).

(** Every retain count in the registry is at least one. *)
Definition counts_positive (w : world) : Prop :=
  ∀ sig n c, _active_connections w !! sig = Some (n, c) → 1 ≤ n.

(** The count of every entry is the number of outstanding handles of its
    signature, and a signature without entry has none. *)
Definition counts_outstanding (p : process) : Prop :=
  ∀ sig,
    match _active_connections (proc_world p) !! sig with
    | Some (n, _) => n = Z.of_nat (outstanding sig (proc_handles p)) ∧ 1 ≤ n
    | None => outstanding sig (proc_handles p) = 0%nat
    end.

(** A physical connection is either open and in the registry under its
    parameters, or closed, once, and out of it. *)
Definition open_iff_registered (w : world) : Prop :=
  ∀ c pc, connections w !! c = Some pc →
    (conn_close_calls pc = 0%nat ∧
     ∃ n, _active_connections w !! conn_params pc = Some (n, c)) ∨
    (conn_close_calls pc = 1%nat ∧
     ∀ n, _active_connections w !! conn_params pc ≠ Some (n, c)).

(** Every outstanding handle is enabled and holds the connection of its
    signature's entry. *)
Definition outstanding_registered (p : process) : Prop :=
  ∀ i h, proc_handles p !! i = Some (h, 0%nat) →
    AMQPConnection.enabled h = true ∧ registered (proc_world p) h.

(** Every handle of a process that runs with messaging enabled is enabled
    and has a connection. *)
Definition handles_enabled (p : process) : Prop :=
  ∀ i h k, proc_handles p !! i = Some (h, k) →
    AMQPConnection.enabled h = true ∧ is_Some (AMQPConnection.connection h).

Definition process_inv (p : process) : Prop :=
  registry_wf (proc_world p) ∧ counts_outstanding p ∧
  open_iff_registered (proc_world p) ∧ outstanding_registered p ∧
  handles_enabled p.

(** The run to come closes no handle twice, and none that was closed. *)
Definition closable (ops : list handle_op) (hs : list (AMQPConnection.t * nat)) : Prop :=
  NoDup (closes ops) ∧
  ∀ i h k, i ∈ closes ops → hs !! i = Some (h, k) → k = 0%nat.

(** An enabled handle on physical connection 0 that has opened no channel
    yet. *)
Definition fresh_handle : AMQPConnection.t :=
  {| AMQPConnection.connection_signature := [];
     AMQPConnection.connection := Some 0%nat;
     AMQPConnection.enabled := true;
     AMQPConnection._channels := [];
     AMQPConnection._channel := None |}.

(** Three handles on one signature; the first is closed twice. *)
Definition closed_twice : list handle_op :=
  [open_handle ∅; open_handle ∅; open_handle ∅; close_handle 0; close_handle 0].

(** Three handles, a channel on the second, and every handle closed once,
    in another order. *)
Definition three_handles : list handle_op :=
  [open_handle ∅; open_handle {["host" := VStr "127.0.0.1:5672"]}; open_handle ∅;
   open_channel 1; close_handle 2; close_handle 0; close_handle 1].

(** * Part II: properties *)

Import AMQPConnection.

Example signature_default :
  _connection_signature (settings_default) ∅ =
  [("host", VStr "localhost:5672"); ("insist", VBool false);
   ("password", VStr "guest"); ("userid", VStr "guest");
   ("virtual_host", VStr "/")].
Proof. vm_compute. reflexivity. Qed.

(** ** The connection signature is canonical *)

Section signature_facts.


Lemma key_lt_asym x y : key_lt x y → key_lt y x → False.
Proof.
  unfold key_lt, cmp_key. intros Hxy Hyx.
  rewrite String.compare_antisym, Hxy in Hyx. discriminate.
Qed.

#[local] Instance key_lt_antisymm : AntiSymm eq key_lt.
Proof. intros x y Hxy Hyx. destruct (key_lt_asym _ _ Hxy Hyx). Qed.

Lemma sorted_insert_perm x l : sorted_insert cmp_key x l ≡ₚ x :: l.
Proof.
  induction l as [|y l IH]; simpl; [done|].
  destruct (cmp_key x y); try done.
  rewrite IH. apply Permutation_swap.
Qed.

Lemma sorted_perm l : sorted cmp_key l ≡ₚ l.
Proof.
  induction l as [|x l IH]; simpl; [done|].
  rewrite sorted_insert_perm. by rewrite IH.
Qed.









Lemma or_setting_idemp x attr fallback :
  or_setting (or_setting x attr fallback) attr fallback = or_setting x attr fallback.
Proof.
  unfold or_setting. destruct (is_not_None x) eqn:Hx; [by rewrite Hx|].
  by destruct (is_not_None (getattr attr fallback)).
Qed.

End signature_facts.



Lemma signature_perm s kw :
  _connection_signature s kw ≡ₚ map_to_list (normalized_kwargs s kw).
Proof. apply sorted_perm. Qed.

Lemma signature_inj s kw1 kw2 :
  _connection_signature s kw1 = _connection_signature s kw2 →
  normalized_kwargs s kw1 = normalized_kwargs s kw2.
Proof.
  intros Heq. apply map_to_list_inj.
  by rewrite <- !signature_perm, Heq.
Qed.







(** ** The registry of physical connections *)

Section registry_facts.

Variable s : settings.
Hypothesis mq_enabled : getattr (ENABLE_MQ s) false = true.

Lemma init_fresh kw w :
  _active_connections w !! _connection_signature s kw = None →
  ∃ h w', __init__ s kw w = (h, w') ∧
    shares (_connection_signature s kw) (length (connections w)) h ∧
    _channels h = [] ∧
    _active_connections w' =
      <[_connection_signature s kw := (1, length (connections w))]> (_active_connections w) ∧
    connections w' =
      connections w ++ [{| conn_params := _connection_signature s kw;
                           conn_close_calls := 0 |}] ∧
    channels w' = channels w ∧ calls w' = calls w.
Proof.
  intros Hnone. unfold __init__. rewrite mq_enabled. simpl. rewrite Hnone.
  eexists _, _. split; [reflexivity|]. simpl. rewrite lookup_insert_eq.
  by repeat split.
Qed.

Lemma init_existing kw w n c :
  _active_connections w !! _connection_signature s kw = Some (n, c) →
  ∃ h w', __init__ s kw w = (h, w') ∧
    shares (_connection_signature s kw) c h ∧
    _channels h = [] ∧
    _active_connections w' =
      <[_connection_signature s kw := (n + 1, c)]> (_active_connections w) ∧
    connections w' = connections w ∧
    channels w' = channels w ∧ calls w' = calls w.
Proof.
  intros Hsome. unfold __init__. rewrite mq_enabled. simpl. rewrite Hsome.
  eexists _, _. split; [reflexivity|]. simpl. rewrite lookup_insert_eq.
  by repeat split.
Qed.

(** A construction keeps the registry well formed, registers its handle
    and leaves the connections of the other entries alone. *)
Lemma init_wf kw w h w' :
  registry_wf w →
  __init__ s kw w = (h, w') →
  registry_wf w' ∧ registered w' h ∧
  connection_signature h = _connection_signature s kw ∧
  (∀ sig n c, _active_connections w !! sig = Some (n, c) →
     ∃ n', _active_connections w' !! sig = Some (n', c)) ∧
  dom (_active_connections w') =
    {[_connection_signature s kw]} ∪ dom (_active_connections w) ∧
  (length (connections w') + size (_active_connections w) =
   length (connections w) + size (_active_connections w'))%nat.
Proof.
  intros Hwf Hinit.
  destruct (_active_connections w !! _connection_signature s kw) as [[n c]|] eqn:Hl.
  - destruct (init_existing kw w n c Hl)
      as (h0 & w0 & Heq & (He & Hs & Hc) & _ & Hr & Hcs & _).
    rewrite Hinit in Heq. injection Heq as <- <-.
    split_and!.
    + intros sig m d. rewrite Hr, Hcs. intros Hsig.
      apply lookup_insert_Some in Hsig as [[<- [= <- <-]]|[_ Hsig]];
        eauto using Hwf.
    + exists (n + 1), c. rewrite Hs, Hr, lookup_insert_eq. done.
    + done.
    + intros sig m d Hsig. rewrite Hr.
      destruct (decide (_connection_signature s kw = sig)) as [<-|Hne].
      * rewrite lookup_insert_eq. rewrite Hl in Hsig. injection Hsig as <- <-. eauto.
      * rewrite lookup_insert_ne by done. eauto.
    + rewrite Hr. by rewrite dom_insert_L.
    + rewrite Hr, Hcs. rewrite map_size_insert_Some; [done|by rewrite Hl].
  - destruct (init_fresh kw w Hl)
      as (h0 & w0 & Heq & (He & Hs & Hc) & _ & Hr & Hcs & _).
    rewrite Hinit in Heq. injection Heq as <- <-.
    split_and!.
    + intros sig m d. rewrite Hr, Hcs. intros Hsig.
      apply lookup_insert_Some in Hsig as [[<- [= <- <-]]|[_ Hsig]].
      * by rewrite lookup_app_r, Nat.sub_diag by done.
      * specialize (Hwf _ _ _ Hsig).
        destruct (connections w !! d) as [pc|] eqn:Hd; [|done].
        by rewrite (lookup_app_l_Some _ _ _ _ Hd).
    + exists 1, (length (connections w)). by rewrite Hs, Hr, lookup_insert_eq.
    + done.
    + intros sig m d Hsig. rewrite Hr.
      rewrite lookup_insert_ne; [eauto|]. intros <-. congruence.
    + rewrite Hr. by rewrite dom_insert_L.
    + rewrite Hr, Hcs, length_app. rewrite map_size_insert_None by done.
      simpl. lia.
Qed.


End registry_facts.


Lemma registry_wf_initial : registry_wf initial_world.
Proof. intros sig n c Hl. simpl in Hl. by rewrite lookup_empty in Hl. Qed.


Example test_connection :
  let r := construct_all settings_default test_connection_kwargs initial_world in
  (connection <$> r.1, length (connections r.2)) =
  ([Some 0; Some 0; Some 1; Some 1], 2)%nat.
Proof. vm_compute. reflexivity. Qed.

(** ** Retain counts *)

Ltac world_simpl :=
  unfold physical_close, channel_call, set_active, set_connections, set_channels,
    set_calls, set_declared_queues, set_declared_exchanges;
  cbn [_active_connections connections channels calls _declared_queues
       _declared_exchanges].

Lemma close_channels_frame chs : ∀ w,
  _active_connections (close_channels chs w) = _active_connections w ∧
  connections (close_channels chs w) = connections w.
Proof.
  unfold close_channels.
  induction chs as [|ch chs IH]; simpl; intros w; [done|].
  destruct (IH (channel_call ch channel_close w)) as [-> ->]. done.
Qed.

(** A release that leaves other holders: the count goes down by one and the
    physical connection is not touched. *)
Lemma close_keeps sig c h w n :
  shares sig c h →
  _active_connections w !! sig = Some (n, c) →
  1 < n →
  ∃ w', close h w = Ok w' ∧
    _active_connections w' = <[sig := (n - 1, c)]> (_active_connections w) ∧
    connections w' = connections w.
Proof.
  intros (He & Hs & Hc) Hl Hn. unfold close. cbv zeta. rewrite He, Hs.
  destruct (close_channels_frame (_channels h) w) as [Hr Hcs].
  cbn zeta. rewrite Hr, Hl. cbn beta iota.
  destruct (n - 1 <=? 0) eqn:Hle; [apply Z.leb_le in Hle; lia|].
  eexists. split; [reflexivity|]. world_simpl. by rewrite ?Hr, ?Hcs.
Qed.

(** The release of the last holder: [close()] is invoked on the physical
    connection and the entry leaves the registry. *)
Lemma close_last sig c h w n :
  shares sig c h →
  _active_connections w !! sig = Some (n, c) →
  n ≤ 1 →
  ∃ w', close h w = Ok w' ∧
    _active_connections w' = delete sig (_active_connections w) ∧
    connections w' =
      alter (λ pc, {| conn_params := conn_params pc;
                      conn_close_calls := S (conn_close_calls pc) |}) c (connections w).
Proof.
  intros (He & Hs & Hc) Hl Hn. unfold close. cbv zeta. rewrite He, Hs, Hc.
  destruct (close_channels_frame (_channels h) w) as [Hr Hcs].
  cbn zeta. rewrite Hr, Hl. cbn beta iota.
  destruct (n - 1 <=? 0) eqn:Hle; [|apply Z.leb_gt in Hle; lia].
  eexists. split; [reflexivity|]. world_simpl. rewrite ?Hr, ?Hcs.
  by rewrite delete_insert_eq.
Qed.

Lemma close_all_keeps sig c ks : ∀ w n,
  Forall (shares sig c) ks →
  _active_connections w !! sig = Some (n, c) →
  Z.of_nat (length ks) < n →
  ∃ w', close_all ks w = Ok w' ∧
    _active_connections w' !! sig = Some (n - Z.of_nat (length ks), c) ∧
    connections w' = connections w.
Proof.
  induction ks as [|h ks IH]; simpl; intros w n Hks Hl Hn.
  - exists w. rewrite Z.sub_0_r. done.
  - apply Forall_cons in Hks as [Hh Hks].
    destruct (close_keeps sig c h w n Hh Hl) as (w1 & Hclose & Hr & Hcs); [lia|].
    rewrite Hclose. simpl.
    destruct (IH w1 (n - 1) Hks) as (w2 & Hall & Hr2 & Hcs2).
    + by rewrite Hr, lookup_insert_eq.
    + lia.
    + exists w2. split; [done|]. split; [|congruence].
      rewrite Hr2. f_equal. f_equal. lia.
Qed.

Lemma construct_existing s kw k : ∀ w hs w' n c,
  getattr (ENABLE_MQ s) false = true →
  _active_connections w !! _connection_signature s kw = Some (n, c) →
  construct_all s (replicate k kw) w = (hs, w') →
  length hs = k ∧ Forall (shares (_connection_signature s kw) c) hs ∧
  _active_connections w' !! _connection_signature s kw = Some (n + Z.of_nat k, c) ∧
  connections w' = connections w.
Proof.
  induction k as [|k IH]; simpl; intros w hs w' n c Hmq Hl Hc.
  - injection Hc as <- <-. rewrite Z.add_0_r. done.
  - destruct (init_existing s Hmq kw w n c Hl)
      as (h & w1 & Hinit & Hsh & _ & Hr & Hcs & _).
    rewrite Hinit in Hc.
    destruct (construct_all s (replicate k kw) w1) as [hs1 w2] eqn:Hrest.
    injection Hc as <- <-.
    destruct (IH w1 hs1 w2 (n + 1) c Hmq) as (Hlen & Hshs & Hr2 & Hcs2); [|done|].
    { by rewrite Hr, lookup_insert_eq. }
    split_and!; [simpl; congruence|by constructor| |congruence].
    rewrite Hr2. f_equal. f_equal. lia.
Qed.

(** C2. [N] handles are built for a signature the registry does not hold.
    After any [k < N] releases by handles of that signature the entry is
    still in the registry with count [N - k], and [close()] has not been
    invoked on the physical connection; the [N]th release invokes it, once,
    and removes the entry. *)
Theorem refcount_release (s : settings) (kw : gmap string value) (w w1 : world)
    (N : nat) (hs : list AMQPConnection.t) :
  getattr (ENABLE_MQ s) false = true →
  _active_connections w !! _connection_signature s kw = None →
  (1 ≤ N)%nat →
  construct_all s (replicate N kw) w = (hs, w1) →
  let sig := _connection_signature s kw in
  let c := length (connections w) in
  length hs = N ∧ Forall (shares sig c) hs ∧
  _active_connections w1 !! sig = Some (Z.of_nat N, c) ∧
  close_calls c w1 = Some 0%nat ∧
  ∀ ks, Forall (shares sig c) ks → (length ks < N)%nat →
    ∃ w2, close_all ks w1 = Ok w2 ∧
      _active_connections w2 !! sig = Some (Z.of_nat N - Z.of_nat (length ks), c) ∧
      close_calls c w2 = Some 0%nat ∧
      (S (length ks) = N → ∀ h, shares sig c h →
         ∃ w3, close h w2 = Ok w3 ∧
           _active_connections w3 !! sig = None ∧
           close_calls c w3 = Some 1%nat).
Proof.
  intros Hmq Hnone HN Hc. cbv zeta.
  destruct N as [|N]; [lia|]. simpl in Hc.
  destruct (init_fresh s Hmq kw w Hnone) as (h & w0 & Hinit & Hsh & _ & Hr & Hcs & _).
  rewrite Hinit in Hc.
  destruct (construct_all s (replicate N kw) w0) as [hs1 w2] eqn:Hrest.
  injection Hc as <- <-.
  destruct (construct_existing s kw N w0 hs1 w2 1 (length (connections w)) Hmq) as (Hlen & Hshs & Hr2 & Hcs2);
    [by rewrite Hr, lookup_insert_eq|done|].
  assert (Hcalls : close_calls (length (connections w)) w2 = Some 0%nat).
  { unfold close_calls. rewrite Hcs2, Hcs.
    by rewrite lookup_app_r, Nat.sub_diag by done. }
  split_and!.
  - simpl. congruence.
  - by constructor.
  - rewrite Hr2. f_equal. f_equal. lia.
  - done.
  - intros ks Hks Hlt.
    destruct (close_all_keeps _ _ ks w2 (1 + Z.of_nat N) Hks Hr2) as (w3 & Hall & Hr3 & Hcs3);
      [lia|].
    exists w3. split_and!.
    + done.
    + rewrite Hr3. f_equal. f_equal. lia.
    + unfold close_calls in *. by rewrite Hcs3.
    + intros Hlast h' Hh'.
      destruct (close_last _ _ h' w3 _ Hh' Hr3) as (w4 & Hclose & Hr4 & Hcs4); [lia|].
      exists w4. split_and!; [done| |].
      * by rewrite Hr4, lookup_delete_eq.
      * unfold close_calls in *. rewrite Hcs4, Hcs3.
        rewrite list_lookup_alter_eq.
        destruct (connections w2 !! length (connections w)) as [pc|]; simpl in *; congruence.
Qed.

(** Three handles on the default signature; two are released, then the
    third. *)
Lemma refcount_release_witness :
  let r := construct_all settings_default (replicate 3 ∅) initial_world in
  let sig := _connection_signature settings_default ∅ in
  ∃ w2, close_all (take 2 r.1) r.2 = Ok w2 ∧
    _active_connections w2 !! sig = Some (1, 0%nat) ∧
    close_calls 0 w2 = Some 0%nat ∧
    ∃ h3, r.1 !! 2%nat = Some h3 ∧
    ∃ w3, close h3 w2 = Ok w3 ∧
      _active_connections w3 !! sig = None ∧
      close_calls 0 w3 = Some 1%nat.
Proof.
  intros r sig.
  destruct (refcount_release settings_default ∅ initial_world r.2 3 r.1
              eq_refl (lookup_empty _) ltac:(lia) (surjective_pairing r))
    as (Hlen & Hsh & _ & _ & Hrel).
  assert (Hlen2 : length (take 2 r.1) = 2%nat) by (rewrite length_take; lia).
  destruct (Hrel (take 2 r.1) (Forall_take _ _ _ Hsh)) as (w2 & Hall & Hr & Hcalls & Hlast);
    [lia|].
  rewrite Hlen2 in Hr.
  exists w2. split_and!; [done|done|done|].
  destruct (lookup_lt_is_Some_2 r.1 2) as [h3 H3]; [lia|].
  exists h3. split; [done|]. apply Hlast; [lia|].
  rewrite Forall_lookup in Hsh. by apply (Hsh 2%nat).
Defined.

Example refcount_three :
  let r := construct_all settings_default (replicate 3 ∅) initial_world in
  let sig := _connection_signature settings_default ∅ in
  (w2 ← close_all (take 2 r.1) r.2;
   w3 ← close_all (drop 2 r.1) w2;
   Ok (_active_connections r.2 !! sig, close_calls 0 r.2,
       _active_connections w2 !! sig, close_calls 0 w2,
       _active_connections w3 !! sig, close_calls 0 w3)) =
  Ok (Some (3, 0%nat), Some 0%nat, Some (1, 0%nat), Some 0%nat, None, Some 1%nat).
Proof. vm_compute. reflexivity. Qed.

(** The registry stays well formed under releases too, so it is well formed
    in every world a process can reach. *)
Lemma close_wf h w w' :
  registry_wf w → close h w = Ok w' → registry_wf w'.
Proof.
  unfold close. cbv zeta. intros Hwf Hclose.
  destruct (close_channels_frame (_channels h) w) as [Hr Hcs].
  destruct (enabled h).
  - rewrite Hr in Hclose.
    destruct (_active_connections w !! connection_signature h) as [[n c]|] eqn:Hl;
      [|done].
    destruct (n - 1 <=? 0).
    + destruct (connection h) as [c'|]; [|done]. injection Hclose as <-.
      intros sig m d. world_simpl. rewrite Hcs, delete_insert_eq.
      intros Hsig. apply lookup_delete_Some in Hsig as [_ Hsig].
      specialize (Hwf _ _ _ Hsig). rewrite list_lookup_alter.
      case_decide; [subst|done].
      by destruct (connections w !! d).
    + injection Hclose as <-. intros sig m d. world_simpl. rewrite Hcs.
      intros Hsig. apply lookup_insert_Some in Hsig as [[<- [= <- <-]]|[_ Hsig]];
        eauto using Hwf.
  - injection Hclose as <-. intros sig m d. rewrite Hr, Hcs. apply Hwf.
Qed.

(** Nothing in a handle records that it was released: a second [close()]
    on the same handle decrements the count again. *)
Lemma close_twice_decrements_twice sig c h w n :
  shares sig c h →
  _active_connections w !! sig = Some (n, c) →
  2 < n →
  ∃ w1 w2, close h w = Ok w1 ∧ close h w1 = Ok w2 ∧
    _active_connections w2 !! sig = Some (n - 2, c).
Proof.
  intros Hsh Hl Hn.
  destruct (close_keeps sig c h w n Hsh Hl) as (w1 & Hc1 & Hr1 & _); [lia|].
  destruct (close_keeps sig c h w1 (n - 1) Hsh) as (w2 & Hc2 & Hr2 & _); [|lia|].
  { by rewrite Hr1, lookup_insert_eq. }
  exists w1, w2. split_and!; [done|done|].
  rewrite Hr2, lookup_insert_eq. f_equal. f_equal. lia.
Qed.

(** C4. Two handles share the default signature; the first one is closed
    twice. The second [close()] decrements the count again: the count goes
    2, 1, gone; the physical connection is closed and its entry deleted
    while the second handle, never closed, still holds it; closing the
    second handle then raises [KeyError] (the registry is left as it
    was). *)
Theorem double_close_decrements_twice :
  let sig := _connection_signature settings_default ∅ in
  let '(h1, w1) := __init__ settings_default ∅ initial_world in
  let '(h2, w2) := __init__ settings_default ∅ w1 in
  (w3 ← close h1 w2;
   w4 ← close h1 w3;
   Ok (connection h2,
       _active_connections w2 !! sig,
       _active_connections w3 !! sig,
       _active_connections w4 !! sig,
       close_calls 0 w4,
       close h2 w4)) =
  Ok (Some 0%nat, Some (2, 0%nat), Some (1, 0%nat), None, Some 1%nat, Raise KeyError).
Proof. vm_compute. reflexivity. Qed.

(** A release on a signature the registry does not hold raises [KeyError]
    before anything is written. *)
Lemma close_missing_entry h w :
  enabled h = true →
  _channels h = [] →
  _active_connections w !! connection_signature h = None →
  close h w = Raise KeyError.
Proof. intros He Hch Hl. unfold close. rewrite Hch, He. simpl. by rewrite Hl. Qed.

(** ** Messaging disabled *)

(** C5. With [ENABLE_MQ] false or missing: building a handle touches
    neither the registry nor the transport and leaves [connection] at
    [None]; [new_channel()] and the [channel] property return [None];
    [close()] does nothing; a publisher built on such a handle has no
    channel and its [basic_publish] returns without a call to the
    transport. None of them raises. *)
Theorem disabled_mode (s : settings) :
  getattr (ENABLE_MQ s) false = false →
  (∀ kw w, ∃ h, __init__ s kw w = (h, w) ∧ disabled_handle h ∧
     connection_signature h = _connection_signature s kw) ∧
  (∀ h w, disabled_handle h →
     new_channel h w = Ok (None, h, w) ∧
     (∃ h', channel h w = Ok (None, h', w) ∧ disabled_handle h' ∧
            channel h' w = Ok (None, h', w)) ∧
     close h w = Ok w) ∧
  (∀ exchange conn rk kwargs w,
     from_option disabled_handle True conn →
     ∃ p, Publisher.__init__ s exchange conn None rk kwargs w = Ok (p, w) ∧
          Publisher.channel p = None) ∧
  (∀ enc p body kwargs w,
     Publisher.channel p = None →
     Publisher.basic_publish enc p body kwargs w = Ok (VNone, w)).
Proof.
  intros Hoff.
  assert (Hops : ∀ h w, disabled_handle h →
     new_channel h w = Ok (None, h, w) ∧
     (∃ h', channel h w = Ok (None, h', w) ∧ disabled_handle h' ∧
            channel h' w = Ok (None, h', w)) ∧
     close h w = Ok w).
  { intros h w (He & Hc & Hchs & Hch). split_and!.
    - unfold new_channel. by rewrite He.
    - unfold channel, new_channel. destruct Hch as [Hch|Hch]; rewrite Hch.
      + rewrite He. simpl. eexists. split; [reflexivity|]. simpl.
        split; [|done]. repeat split; auto.
      + exists h. split; [done|]. split; [by repeat split; auto|]. by rewrite Hch.
    - unfold close. rewrite Hchs, He. done. }
  assert (Hinit : ∀ kw w, ∃ h, __init__ s kw w = (h, w) ∧ disabled_handle h ∧
     connection_signature h = _connection_signature s kw).
  { intros kw w. unfold __init__. rewrite Hoff.
    eexists. split; [reflexivity|]. repeat split; auto. }
  split_and!; [done|done| |].
  - intros exchange conn rk kwargs w Hconn. unfold Publisher.__init__.
    destruct conn as [h|]; simpl in Hconn.
    + destruct (Hops h w Hconn) as (_ & (h' & Hch & _) & _). rewrite Hch. simpl.
      eexists. split; reflexivity.
    + destruct (Hinit ∅ w) as (h & -> & Hh & _).
      destruct (Hops h w Hh) as (_ & (h' & Hch & _) & _). rewrite Hch. simpl.
      eexists. split; reflexivity.
  - intros enc p body kwargs w Hp. unfold Publisher.basic_publish. by rewrite Hp.
Qed.

Lemma disabled_mode_witness :
  ∃ h, __init__ settings_disabled ∅ initial_world = (h, initial_world) ∧
       disabled_handle h ∧ close h initial_world = Ok initial_world.
Proof.
  destruct (disabled_mode settings_disabled eq_refl) as (Hinit & Hops & _).
  destruct (Hinit ∅ initial_world) as (h & Heq & Hh & _).
  destruct (Hops h initial_world Hh) as (_ & _ & Hclose).
  by exists h.
Defined.

(** ** Queue declaration *)

Lemma init_frame s kw w :
  calls (__init__ s kw w).2 = calls w ∧
  _declared_queues (__init__ s kw w).2 = _declared_queues w.
Proof.
  unfold __init__. destruct (getattr (ENABLE_MQ s) false); [|done].
  by destruct (_active_connections w !! _connection_signature s kw) as [[n c]|].
Qed.

Lemma channel_frame h w ch h' w' :
  channel h w = Ok (ch, h', w') →
  calls w' = calls w ∧ _declared_queues w' = _declared_queues w.
Proof.
  unfold channel, new_channel. intros H.
  destruct (_channel h); [by injection H as <- <- <-|].
  destruct (enabled h); [|by injection H as <- <- <-].
  destruct (connection h); [|done]. by injection H as <- <- <-.
Qed.

(** What a construction does to the transport and to the declared-queue
    list. *)
Lemma Consumer_init_calls s q ex rk conn ch force kw w c w' :
  Consumer.__init__ s q ex rk conn ch force kw w = Ok (c, w') →
  Consumer.queue c = q ∧
  if decide (q ∈ _declared_queues w) then
    calls w' = calls w ∧ _declared_queues w' = _declared_queues w
  else
    _declared_queues w' = _declared_queues w ++ [q] ∧
    if force then calls w' = calls w
    else ∃ ch' kw1 kw2,
      calls w' = calls w ++ [(ch', queue_declare kw1); (ch', queue_bind kw2)] ∧
      kw1 !! "queue" = Some (VStr q) ∧ kw2 !! "queue" = Some (VStr q).
Proof.
  unfold Consumer.__init__. intros H.
  destruct (match conn with Some c0 => (c0, w) | None => __init__ s ∅ w end)
    as [h w0] eqn:Hconn.
  assert (Hw0 : calls w0 = calls w ∧ _declared_queues w0 = _declared_queues w).
  { destruct conn; [by injection Hconn as <- <-|].
    pose proof (init_frame s ∅ w) as Hf. by rewrite Hconn in Hf. }
  destruct Hw0 as [Hc0 Hq0].
  destruct (match ch with Some ch0 => Ok (Some ch0, h, w0) | None => channel h w0 end)
    as [[[och h1] w1]|e] eqn:Hch; [|done].
  assert (Hw1 : calls w1 = calls w ∧ _declared_queues w1 = _declared_queues w).
  { destruct ch; [injection Hch as <- <- <-; done|].
    apply channel_frame in Hch as [-> ->]. done. }
  destruct Hw1 as [Hc1 Hq1]. simpl in H. rewrite <- Hq1.
  destruct (decide (q ∈ _declared_queues w1)) as [Hin|Hnin].
  { injection H as <- <-. by rewrite Hc1, Hq1. }
  destruct force.
  { simpl in H. injection H as <- <-. simpl. by rewrite Hc1. }
  destruct ex as [ex|]; [|done].
  destruct och as [ch'|]; [|done].
  simpl in H. injection H as <- <-. simpl. split; [done|]. split; [done|].
  eexists _, _, _. rewrite Hc1, <- app_assoc. split; [reflexivity|].
  split; apply lookup_insert_eq.
Qed.

Lemma count_calls_app P w w' cl :
  calls w' = calls w ++ cl →
  count_calls P w' =
  (count_calls P w + length (List.filter (λ c : nat * chan_call, P c.2) cl))%nat.
Proof. intros Hc. unfold count_calls. by rewrite Hc, List.filter_app, length_app. Qed.

Lemma list_remove_first_spec x : ∀ l l',
  NoDup l →
  list_remove_first x l = Ok l' →
  x ∈ l ∧ NoDup l' ∧ ∀ y, y ∈ l' ↔ y ∈ l ∧ y ≠ x.
Proof.
  induction l as [|a l IH]; simpl; intros l' Hnd H; [done|].
  apply NoDup_cons in Hnd as [Ha Hnd].
  destruct (decide (x = a)) as [->|Hne].
  - injection H as <-. split_and!; [set_solver|done|].
    intros y. rewrite elem_of_cons. split; [|naive_solver].
    intros Hy. split; [by right|]. by intros ->.
  - destruct (list_remove_first x l) as [l''|e] eqn:Hrem; [|done].
    simpl in H. injection H as <-.
    destruct (IH l'' Hnd eq_refl) as (Hx & Hnd' & Hiff).
    split_and!; [set_solver| |].
    + apply NoDup_cons. split; [|done]. rewrite Hiff. naive_solver.
    + intros y. rewrite !elem_of_cons, Hiff. naive_solver.
Qed.

Lemma declares_queue q q0 kw :
  kw !! "queue" = Some (VStr q0) →
  declares q (queue_declare kw) = bool_decide (q0 = q) ∧
  binds q (queue_bind kw) = bool_decide (q0 = q).
Proof.
  intros Hkw. simpl. rewrite Hkw.
  split; apply bool_decide_ext; split; congruence.
Qed.

(** One operation never lets the number of declarations (or bindings) of
    [q] outgrow the number of its deletions, counting one more while [q]
    is not recorded. *)
Lemma run_op_declares s op w w' q :
  NoDup (_declared_queues w) →
  run_op s op w = Ok w' →
  NoDup (_declared_queues w') ∧
  (count_calls (declares q) w' + unrecorded q w' + count_calls (deletes q) w ≤
   count_calls (declares q) w + unrecorded q w + count_calls (deletes q) w')%nat ∧
  (count_calls (binds q) w' + unrecorded q w' + count_calls (deletes q) w ≤
   count_calls (binds q) w + unrecorded q w + count_calls (deletes q) w')%nat.
Proof.
  intros Hnd Hop. destruct op as [q0 ex rk conn ch force kw|c]; simpl in Hop.
  - destruct (Consumer.__init__ s q0 ex rk conn ch force kw w) as [[c w1]|e] eqn:Hinit;
      [|done].
    simpl in Hop. injection Hop as <-.
    apply Consumer_init_calls in Hinit as [_ Hinit].
    destruct (decide (q0 ∈ _declared_queues w)) as [Hin|Hnin].
    { destruct Hinit as [Hc Hq]. unfold count_calls, unrecorded.
      rewrite Hc, Hq. split; [done|]. lia. }
    destruct Hinit as [Hq Hinit].
    assert (Hnd' : NoDup (_declared_queues w1)).
    { rewrite Hq. apply NoDup_app. split; [done|]. split; [|apply NoDup_singleton].
      intros x Hx Hx'. apply list_elem_of_singleton in Hx' as ->. done. }
    split; [done|].
    assert (Hun : (unrecorded q w1 + (if bool_decide (q0 = q) then 1 else 0)
                   = unrecorded q w)%nat).
    { unfold unrecorded. rewrite Hq. case_bool_decide as Hqq.
      - subst q0. rewrite decide_True by set_solver. by rewrite decide_False.
      - destruct (decide (q ∈ _declared_queues w)).
        + rewrite decide_True by set_solver. done.
        + rewrite decide_False; [done|]. set_solver. }
    destruct force.
    { unfold count_calls. rewrite Hinit. lia. }
    destruct Hinit as (ch' & kw1 & kw2 & Hc & Hk1 & Hk2).
    destruct (declares_queue q q0 kw1 Hk1) as [Hd1 _].
    destruct (declares_queue q q0 kw2 Hk2) as [_ Hb2].
    rewrite !(count_calls_app _ w w1 _ Hc).
    cbn [List.filter snd length]. rewrite Hd1, Hb2.
    cbn [declares binds deletes].
    destruct (bool_decide (q0 = q)); cbn [length]; lia.
  - unfold Consumer.destroy_queue in Hop.
    destruct (Consumer.channel c) as [ch|]; [|done]. simpl in Hop.
    destruct (list_remove_first (Consumer.queue c) (_declared_queues w))
      as [l'|e] eqn:Hrem; [|done].
    simpl in Hop. injection Hop as <-.
    destruct (list_remove_first_spec _ _ _ Hnd Hrem) as (Hin & Hnd' & Hiff).
    split; [done|].
    set (w1 := set_declared_queues l' (channel_call ch (queue_delete (Consumer.queue c)) w)).
    assert (Hc : calls w1 = calls w ++ [(ch, queue_delete (Consumer.queue c))]) by done.
    rewrite !(count_calls_app _ w w1 _ Hc).
    cbn [List.filter snd length declares binds deletes].
    assert (Hun : (unrecorded q w1
                   = unrecorded q w + (if bool_decide (Consumer.queue c = q) then 1 else 0))%nat).
    { unfold unrecorded, w1. cbn [_declared_queues set_declared_queues].
      case_bool_decide as Hqq; repeat case_decide; try done;
        rewrite Hiff in *; naive_solver. }
    rewrite Hun. destruct (bool_decide (Consumer.queue c = q)); cbn [length]; lia.
Qed.

Lemma run_ops_declares s ops : ∀ w w' q,
  NoDup (_declared_queues w) →
  run_ops s ops w = Ok w' →
  (count_calls (declares q) w' + unrecorded q w' + count_calls (deletes q) w ≤
   count_calls (declares q) w + unrecorded q w + count_calls (deletes q) w')%nat ∧
  (count_calls (binds q) w' + unrecorded q w' + count_calls (deletes q) w ≤
   count_calls (binds q) w + unrecorded q w + count_calls (deletes q) w')%nat.
Proof.
  induction ops as [|op ops IH]; simpl; intros w w' q Hnd Hrun.
  - injection Hrun as <-. lia.
  - destruct (run_op s op w) as [w1|e] eqn:Hop; [|done]. simpl in Hrun.
    destruct (run_op_declares s op w w1 q Hnd Hop) as (Hnd1 & Hd1 & Hb1).
    destruct (IH w1 w' q Hnd1 Hrun) as (Hd2 & Hb2). lia.
Qed.

(** C10, as the code has it. While a queue name stays in the class-level
    list it is declared and bound at most once: over any run of consumer
    constructions and queue destructions, the declarations (and the
    bindings) of a name number at most one more than its deletions, since
    [destroy_queue] takes the name off the list and the next consumer
    declares it again. A consumer built for a recorded name makes no call
    on the transport, whatever its parameters; one built with
    [force_no_declare] for a name not yet recorded makes no call either and
    records the name. *)
Theorem queue_declared_once_while_recorded (s : settings) :
  (∀ ops w w' q,
     NoDup (_declared_queues w) →
     run_ops s ops w = Ok w' →
     (count_calls (declares q) w' + unrecorded q w' + count_calls (deletes q) w ≤
      count_calls (declares q) w + unrecorded q w + count_calls (deletes q) w')%nat ∧
     (count_calls (binds q) w' + unrecorded q w' + count_calls (deletes q) w ≤
      count_calls (binds q) w + unrecorded q w + count_calls (deletes q) w')%nat) ∧
  (∀ ops w' q,
     run_ops s ops initial_world = Ok w' →
     (count_calls (declares q) w' ≤ 1 + count_calls (deletes q) w')%nat ∧
     (count_calls (binds q) w' ≤ 1 + count_calls (deletes q) w')%nat) ∧
  (∀ q ex rk conn ch force kw w c w',
     q ∈ _declared_queues w →
     Consumer.__init__ s q ex rk conn ch force kw w = Ok (c, w') →
     calls w' = calls w ∧ _declared_queues w' = _declared_queues w) ∧
  (∀ q ex rk conn ch kw w c w',
     q ∉ _declared_queues w →
     Consumer.__init__ s q ex rk conn ch true kw w = Ok (c, w') →
     calls w' = calls w ∧ q ∈ _declared_queues w').
Proof.
  split_and!.
  - intros ops w w' q. apply run_ops_declares.
  - intros ops w' q Hrun.
    destruct (run_ops_declares s ops initial_world w' q (NoDup_nil_2) Hrun) as [Hd Hb].
    change (count_calls (declares q) initial_world) with 0%nat in Hd.
    change (count_calls (binds q) initial_world) with 0%nat in Hb.
    change (count_calls (deletes q) initial_world) with 0%nat in Hd, Hb.
    change (unrecorded q initial_world) with 1%nat in Hd, Hb. lia.
  - intros q ex rk conn ch force kw w c w' Hin Hinit.
    apply Consumer_init_calls in Hinit as [_ Hinit].
    by rewrite decide_True in Hinit.
  - intros q ex rk conn ch kw w c w' Hnin Hinit.
    apply Consumer_init_calls in Hinit as [_ Hinit].
    rewrite decide_False in Hinit by done. destruct Hinit as [Hq Hc].
    split; [done|]. rewrite Hq. set_solver.
Qed.

Lemma queue_declared_once_while_recorded_witness :
  is_Ok (run_ops settings_default two_tests initial_world) = true ∧
  ∀ w', run_ops settings_default two_tests initial_world = Ok w' →
    (count_calls (declares "q") w' ≤ 1 + count_calls (deletes "q") w')%nat.
Proof.
  split; [vm_compute; reflexivity|].
  intros w' Hrun.
  exact (proj1 (proj1 (proj2 (queue_declared_once_while_recorded settings_default))
                 two_tests w' "q" Hrun)).
Defined.

(** C10 as stated fails: within one process, a consumer declares and binds
    its queue, the queue is destroyed, and the next consumer for the same
    name declares and binds it a second time. *)
Lemma queue_declared_twice_after_destroy :
  ¬ (∀ n : nat,
       (w ← run_ops settings_default (take 3 two_tests) initial_world;
        Ok (count_calls (declares "q") w)) = Ok n →
       (n ≤ 1)%nat).
Proof.
  intros Hclaim.
  assert (Hrun : (w ← run_ops settings_default (take 3 two_tests) initial_world;
                  Ok (count_calls (declares "q") w)) = Ok 2%nat)
    by (vm_compute; reflexivity).
  specialize (Hclaim 2%nat Hrun). lia.
Qed.

Example two_tests_counts :
  (w ← run_ops settings_default two_tests initial_world;
   Ok (count_calls (declares "q") w, count_calls (binds "q") w,
       count_calls (deletes "q") w, _declared_queues w)) =
  Ok (2, 2, 2, [])%nat.
Proof. vm_compute. reflexivity. Qed.

(** ** The worker loop *)

Section run_facts.

Import ConsumerProcess.

Context {S : Type}.
Variable process_message : Message → S → option exn * S.
Variable is_dirty : S → bool.
Variable format_exc : exn → string.
Variable auto_ack : bool.

Local Abbreviation run := (run process_message is_dirty format_exc auto_ack).

Lemma transaction_spec m st r st' :
  process_message m st = (r, st') →
  transaction is_dirty (process_message m) st = (transaction_effects is_dirty r st', r, st').
Proof. intros H. unfold transaction. by rewrite H. Qed.

(** One pass of the loop on a message whose processing fails with
    [NotImplementedError]. *)
Lemma run_not_implemented ft m rest st st' :
  process_message m st = (Some NotImplementedError, st') →
  run ft (m :: rest) st =
  (transaction_effects is_dirty (Some NotImplementedError) st', st', Some NotImplementedError).
Proof. intros H. simpl. by rewrite (transaction_spec _ _ _ _ H). Qed.

(** One pass on a message whose processing fails otherwise. *)
Lemma run_failure ft m rest st st' e :
  process_message m st = (Some e, st') →
  e ≠ NotImplementedError →
  run ft (m :: rest) st =
  if ft then
    prepend (transaction_effects is_dirty (Some e) st' ++ report_effects format_exc e m ft)
      (run ft rest st')
  else
    (transaction_effects is_dirty (Some e) st' ++ report_effects format_exc e m ft,
     st', Some e).
Proof.
  intros H He. simpl. rewrite (transaction_spec _ _ _ _ H).
  destruct e; try done; destruct ft; try done;
    by destruct (run true rest st') as [[fx' st''] r'].
Qed.

(** One pass on a message whose processing succeeds. *)
Lemma run_success ft m rest st st' :
  process_message m st = (None, st') →
  run ft (m :: rest) st =
  prepend (transaction_effects is_dirty None st' ++
           (if auto_ack then [acknowledge m] else []))
    (run ft rest st').
Proof.
  intros H. simpl. rewrite (transaction_spec _ _ _ _ H).
  by destruct (run ft rest st') as [[fx' st''] r'].
Qed.

(** The loop after some passes that raised nothing out of it. *)
Lemma run_app ft done : ∀ rest st fx st',
  run ft done st = (fx, st', None) →
  run ft (done ++ rest) st = prepend fx (run ft rest st').
Proof.
  induction done as [|m done IH]; intros rest st fx st' Hdone.
  - simpl in Hdone. injection Hdone as <- <-. simpl.
    by destruct (run ft rest st) as [[fx' st''] r'].
  - destruct (process_message m st) as [r st1] eqn:Hm.
    destruct r as [e|].
    + destruct (decide (e = NotImplementedError)) as [->|He].
      { rewrite (run_not_implemented _ _ _ _ _ Hm) in Hdone. discriminate. }
      rewrite (run_failure _ _ _ _ _ _ Hm He) in Hdone.
      change ((m :: done) ++ rest) with (m :: (done ++ rest)).
      rewrite (run_failure _ _ _ _ _ _ Hm He).
      destruct ft; [|done].
      destruct (run true done st1) as [[fx1 st2] r1] eqn:Hrest.
      unfold prepend in Hdone. simpl in Hdone. injection Hdone as <- <- ->.
      rewrite (IH rest st1 fx1 st2 Hrest).
      unfold prepend. simpl. by rewrite app_assoc.
    + rewrite (run_success _ _ _ _ _ Hm) in Hdone.
      change ((m :: done) ++ rest) with (m :: (done ++ rest)).
      rewrite (run_success _ _ _ _ _ Hm).
      destruct (run ft done st1) as [[fx1 st2] r1] eqn:Hrest.
      unfold prepend in Hdone. simpl in Hdone. injection Hdone as <- <- ->.
      rewrite (IH rest st1 fx1 st2 Hrest).
      unfold prepend. simpl. by rewrite app_assoc.
Qed.

End run_facts.

Lemma transaction_effects_quiet {S : Type} (is_dirty : S → bool) r st :
  ConsumerProcess.unreported (transaction_effects is_dirty r st) ∧
  ∀ m, ConsumerProcess.acknowledge m ∉ transaction_effects is_dirty r st.
Proof.
  unfold ConsumerProcess.unreported, transaction_effects.
  destruct (is_dirty st), r; simpl; repeat split; intros;
    rewrite ?elem_of_cons, elem_of_nil; naive_solver.
Qed.

Lemma report_effects_reported (format_exc : exn → string) e m ft :
  ConsumerProcess.reported (report_effects format_exc e m ft) ∧
  ∀ m', ConsumerProcess.acknowledge m' ∉ report_effects format_exc e m ft.
Proof.
  unfold ConsumerProcess.reported, report_effects. split_and!.
  - eexists. apply list_elem_of_here.
  - eexists _, _, _, _. apply list_elem_of_further, list_elem_of_here.
  - intros m'. rewrite !elem_of_cons, elem_of_nil. naive_solver.
Qed.

(** C9. At any pass of the loop, a [NotImplementedError] out of
    [process_message] leaves the loop at once, in both modes: the messages
    that follow are not processed, and the pass logs nothing as critical,
    mails nothing and acknowledges nothing. *)
Theorem not_implemented_always_propagates {S : Type}
    (process_message : Message → S → option exn * S) (is_dirty : S → bool)
    (format_exc : exn → string) (auto_ack fault_tolerant : bool)
    (done : list Message) (m : Message) (rest : list Message)
    (st st1 st2 : S) (fx : list ConsumerProcess.effect) :
  ConsumerProcess.run process_message is_dirty format_exc auto_ack fault_tolerant done st
    = (fx, st1, None) →
  process_message m st1 = (Some NotImplementedError, st2) →
  ConsumerProcess.run process_message is_dirty format_exc auto_ack fault_tolerant
    (done ++ m :: rest) st
    = (fx ++ transaction_effects is_dirty (Some NotImplementedError) st2, st2,
       Some NotImplementedError) ∧
  ConsumerProcess.unreported (transaction_effects is_dirty (Some NotImplementedError) st2) ∧
  ∀ m', ConsumerProcess.acknowledge m' ∉
          transaction_effects is_dirty (Some NotImplementedError) st2.
Proof.
  intros Hdone Hm.
  rewrite (run_app _ _ _ _ _ _ _ _ _ _ Hdone).
  rewrite (run_not_implemented _ _ _ _ _ _ _ _ _ Hm).
  split; [done|]. exact (transaction_effects_quiet is_dirty _ st2).
Qed.

Lemma not_implemented_always_propagates_witness :
  ConsumerProcess.run not_implemented_on_m5 (λ _, false) exn_name true true [m5; m6] tt
  = ([ConsumerProcess.enter_transaction_management; ConsumerProcess.managed;
      ConsumerProcess.leave_transaction_management], tt, Some NotImplementedError).
Proof.
  exact (proj1 (not_implemented_always_propagates not_implemented_on_m5 (λ _, false)
                  exn_name true true [] m5 [m6] tt tt tt [] eq_refl eq_refl)).
Defined.

(** C7, as the code has it. At any pass of the loop, a failure of
    [process_message] other than [NotImplementedError] is logged and mailed
    to the admins and the message is not acknowledged; in fault-tolerant
    mode the loop goes on with the next message, otherwise the failure
    leaves the loop. A message processed without failure is acknowledged
    when [auto_ack] is set, and the loop goes on. *)
Theorem processing_failure_policy {S : Type}
    (process_message : Message → S → option exn * S) (is_dirty : S → bool)
    (format_exc : exn → string) (auto_ack fault_tolerant : bool)
    (done : list Message) (m : Message) (rest : list Message)
    (st st1 st2 : S) (fx : list ConsumerProcess.effect) :
  ConsumerProcess.run process_message is_dirty format_exc auto_ack fault_tolerant done st
    = (fx, st1, None) →
  (∀ e, process_message m st1 = (Some e, st2) → e ≠ NotImplementedError →
     let pass := transaction_effects is_dirty (Some e) st2 ++
                 report_effects format_exc e m fault_tolerant in
     ConsumerProcess.reported pass ∧
     (∀ m', ConsumerProcess.acknowledge m' ∉ pass) ∧
     ConsumerProcess.run process_message is_dirty format_exc auto_ack fault_tolerant
       (done ++ m :: rest) st
     = if fault_tolerant then
         prepend (fx ++ pass)
           (ConsumerProcess.run process_message is_dirty format_exc auto_ack
              fault_tolerant rest st2)
       else (fx ++ pass, st2, Some e)) ∧
  (process_message m st1 = (None, st2) →
     ConsumerProcess.run process_message is_dirty format_exc auto_ack fault_tolerant
       (done ++ m :: rest) st
     = prepend (fx ++ transaction_effects is_dirty None st2 ++
                (if auto_ack then [ConsumerProcess.acknowledge m] else []))
         (ConsumerProcess.run process_message is_dirty format_exc auto_ack
            fault_tolerant rest st2)).
Proof.
  intros Hdone. split.
  - intros e Hm He pass. split_and!.
    + destruct (report_effects_reported format_exc e m fault_tolerant)
        as [[[tb Hl] (sj & tb' & m0 & ft & Hmail)] _].
      split; [exists tb|exists sj, tb', m0, ft]; apply elem_of_app; by right.
    + intros m' Hin. apply elem_of_app in Hin as [Hin|Hin].
      * revert Hin. by apply transaction_effects_quiet.
      * revert Hin. by apply report_effects_reported.
    + rewrite (run_app _ _ _ _ _ _ _ _ _ _ Hdone).
      rewrite (run_failure _ _ _ _ _ _ _ _ _ _ Hm He).
      subst pass. destruct fault_tolerant; unfold prepend; cbn [fst snd]; [|done].
      by rewrite app_assoc.
  - intros Hm.
    rewrite (run_app _ _ _ _ _ _ _ _ _ _ Hdone).
    rewrite (run_success _ _ _ _ _ _ _ _ _ Hm).
    unfold prepend. cbn [fst snd]. by rewrite !app_assoc.
Qed.

(** The scenario of the specification: [m5] fails in fault-tolerant mode;
    it is reported and left unacknowledged, and [m6] is processed and
    acknowledged. *)
Lemma processing_failure_policy_witness :
  ConsumerProcess.run fails_on_m5 (λ _, false) exn_name true true [m5; m6] tt
  = ([ConsumerProcess.enter_transaction_management; ConsumerProcess.managed;
      ConsumerProcess.leave_transaction_management;
      ConsumerProcess.logger_critical "ValueError";
      ConsumerProcess.mail_admins "Queue worker error" "ValueError" m5 true;
      ConsumerProcess.logger_info "Traceback has been emailed with mail_admins()";
      ConsumerProcess.enter_transaction_management; ConsumerProcess.managed;
      ConsumerProcess.leave_transaction_management;
      ConsumerProcess.acknowledge m6], tt, None).
Proof.
  destruct (processing_failure_policy fails_on_m5 (λ _, false) exn_name true true
              [] m5 [m6] tt tt tt [] eq_refl) as [Hfail _].
  destruct (Hfail (OtherError "ValueError") eq_refl ltac:(discriminate)) as (_ & _ & Hrun).
  exact Hrun.
Defined.

(** C7 as stated fails: in fault-tolerant mode, [process_message] raises
    [NotImplementedError] on [m5]; nothing is logged or mailed, the
    failure is not swallowed and [m6] is never processed. *)
Lemma not_implemented_not_reported :
  let r := ConsumerProcess.run not_implemented_on_m5 (λ _, false) exn_name true true
             [m5; m6] tt in
  ¬ ConsumerProcess.reported r.1.1 ∧ r.2 ≠ None ∧
  ConsumerProcess.acknowledge m6 ∉ r.1.1.
Proof.
  simpl. unfold ConsumerProcess.reported. split_and!.
  - intros [[tb Hin] _]. rewrite !elem_of_cons, elem_of_nil in Hin. naive_solver.
  - discriminate.
  - rewrite !elem_of_cons, elem_of_nil. naive_solver.
Qed.

(** ** The message iterator *)

Section iterator_facts.

Import Consumer.





(** *** A call with a limit *)







Example limit_two :
  let r := exec Consumer.decode (limited "q" false "ctag" 2) limit_two_events
             message_iterator in
  (yields r.2, pc r.1, deliveries (inbox r.1), channel_calls r.1) =
  ([m5], Finished, [m6], [basic_consume "q" false; basic_cancel "ctag"]).
Proof. vm_compute. reflexivity. Qed.

(** *** A subscription that lasts: the handoff *)

Section handoff.

Variable dec : Message → Message.
Variable a : iterator_args.
Hypothesis no_limit : limit a = None.

Local Abbreviation decode := (λ m : Message, Ok (dec m)).

Lemma pending_not_check it :
  pc it ≠ Check → pending it = deliveries (inbox it).
Proof. unfold pending. by destruct (pc it). Qed.






End handoff.



(** The callback waits on [waiting], not on the slot: were it invoked a
    second time before the generator reads, it would replace the message.
    What keeps the slot safe is that [wait()] invokes it once per call. *)
Remark callback_replaces_unread m m' :
  FakeCallback m' (occupied m) = Some (occupied m').
Proof. reflexivity. Qed.

Example handoff_run :
  let r := exec Consumer.decode (unlimited "q" false "ctag")
             (to_event <$> [Deliver m5; Deliver m6; Pull; Pull; Pull; Pull; Pull])
             message_iterator in
  (yields r.2, pc r.1, pending r.1, channel_calls r.1) =
  ([m5], LoopHead, [m6], [basic_consume "q" false]).
Proof. vm_compute. reflexivity. Qed.

End iterator_facts.

(** ** A process and its handles: the registry under any interleaving *)

Section process_facts.

Variable s : settings.

Lemma outstanding_app sig hs1 hs2 :
  outstanding sig (hs1 ++ hs2) = (outstanding sig hs1 + outstanding sig hs2)%nat.
Proof. unfold outstanding. by rewrite filter_app, length_app. Qed.

Lemma outstanding_cons sig hk hs :
  outstanding sig (hk :: hs) =
  ((if decide (hk.2 = 0%nat ∧ connection_signature hk.1 = sig) then 1 else 0)
   + outstanding sig hs)%nat.
Proof.
  unfold outstanding. rewrite filter_cons.
  by destruct (decide (hk.2 = 0%nat ∧ connection_signature hk.1 = sig)).
Qed.

(** A handle that changes neither its signature nor its count of closes. *)
Lemma outstanding_insert_same sig hs : ∀ i h h' k,
  hs !! i = Some (h, k) →
  connection_signature h' = connection_signature h →
  outstanding sig (<[i := (h', k)]> hs) = outstanding sig hs.
Proof.
  induction hs as [|hk hs IH]; intros i h h' k Hl Hsig; [done|].
  destruct i as [|i]; simpl in *.
  - simplify_eq. rewrite !outstanding_cons. simpl. by rewrite Hsig.
  - rewrite !outstanding_cons. by rewrite (IH i h h' k Hl Hsig).
Qed.

(** A handle that is closed for the first time. *)
Lemma outstanding_insert_closed sig hs : ∀ i h,
  hs !! i = Some (h, 0%nat) →
  (outstanding sig (<[i := (h, 1%nat)]> hs)
   + (if decide (connection_signature h = sig) then 1 else 0)
   = outstanding sig hs)%nat.
Proof.
  induction hs as [|hk hs IH]; intros i h Hl; [done|].
  destruct i as [|i]; simpl in *.
  - simplify_eq. rewrite !outstanding_cons. simpl.
    repeat case_decide; try lia; naive_solver.
  - rewrite !outstanding_cons. specialize (IH i h Hl). lia.
Qed.

Lemma outstanding_zero sig hs i h :
  outstanding sig hs = 0%nat →
  hs !! i = Some (h, 0%nat) →
  connection_signature h ≠ sig.
Proof.
  unfold outstanding. intros Hz Hl Hsig.
  apply length_zero_iff_nil in Hz.
  assert (Hin : (h, 0%nat) ∈ filter (λ hk : t * nat,
            hk.2 = 0%nat ∧ connection_signature hk.1 = sig) hs).
  { apply list_elem_of_filter. split; [done|]. by eapply list_elem_of_lookup_2. }
  rewrite Hz in Hin. by apply elem_of_nil in Hin.
Qed.

Lemma outstanding_pos sig hs :
  (1 ≤ outstanding sig hs)%nat →
  ∃ i h, hs !! i = Some (h, 0%nat) ∧ connection_signature h = sig.
Proof.
  unfold outstanding. intros Hpos.
  destruct (filter (λ hk : t * nat,
              hk.2 = 0%nat ∧ connection_signature hk.1 = sig) hs) as [|[h k] l] eqn:Hf;
    [simpl in Hpos; lia|].
  assert (Hin : (h, k) ∈ filter (λ hk : t * nat,
            hk.2 = 0%nat ∧ connection_signature hk.1 = sig) hs)
    by (rewrite Hf; left).
  apply list_elem_of_filter in Hin as [[Hk Hs] Hin]. simpl in *. subst k.
  apply list_elem_of_lookup_1 in Hin as [i Hi]. eauto.
Qed.

Hypothesis mq_enabled : getattr (ENABLE_MQ s) false = true.

Lemma step_open_handle kw p :
  process_inv p →
  ∃ p', handle_step s (open_handle kw) p = Ok p' ∧ process_inv p'.
Proof.
  intros (Hwf & Hcnt & Hopen & Hreg & Hen). destruct p as [w hs]. simpl in *.
  destruct (__init__ s kw w) as [h w'] eqn:Hinit.
  eexists. split; [reflexivity|].
  destruct (init_wf s mq_enabled kw w h w' Hwf Hinit) as (Hwf' & Hregh & Hsig & Hkeep & _).
  unfold process_inv. simpl.
  destruct (_active_connections w !! _connection_signature s kw) as [[n c]|] eqn:Hl.
  - destruct (init_existing s mq_enabled kw w n c Hl)
      as (h0 & w0 & Heq & (He & Hs & Hc) & _ & Hr & Hcs & _).
    rewrite Hinit in Heq. injection Heq as <- <-.
    split_and!; [done| | | |].
    + intros sig. simpl. rewrite Hr, outstanding_app, outstanding_cons. simpl.
      specialize (Hcnt sig). simpl in Hcnt.
      destruct (decide (_connection_signature s kw = sig)) as [<-|Hne].
      * rewrite lookup_insert_eq. rewrite Hl in Hcnt.
        rewrite decide_True by done. unfold outstanding at 2. simpl. lia.
      * rewrite lookup_insert_ne by done.
        rewrite decide_False by (intros [_ ?]; congruence).
        unfold outstanding at 2. simpl. rewrite !Nat.add_0_r. done.
    + intros d pc Hd. rewrite Hcs in Hd. rewrite Hr.
      destruct (Hopen d pc Hd) as [[H0 [m Hm]]|[H1 Hno]].
      * left. split; [done|].
        destruct (decide (_connection_signature s kw = conn_params pc)) as [Heq|Hne].
        -- rewrite <- Heq in *. rewrite lookup_insert_eq. rewrite Hl in Hm.
           injection Hm as <- <-. eauto.
        -- rewrite lookup_insert_ne by done. eauto.
      * right. split; [done|]. intros m Hm.
        apply lookup_insert_Some in Hm as [[Heq [= <- <-]]|[_ Hm]].
        -- apply (Hno n). by rewrite <- Heq.
        -- by apply (Hno m).
    + intros i h' Hi. simpl.
      apply lookup_app_Some in Hi as [Hi|[_ Hi]].
      * destruct (Hreg i h' Hi) as [He' (m & d & Hm & Hd)]. split; [done|].
        destruct (Hkeep _ _ _ Hm) as [m' Hm']. by exists m', d.
      * apply list_lookup_singleton_Some in Hi as [_ [= <-]]. done.
    + intros i h' k Hi. simpl in Hi.
      apply lookup_app_Some in Hi as [Hi|[_ Hi]]; [by eapply Hen|].
      apply list_lookup_singleton_Some in Hi as [_ [= <- <-]]. by rewrite He, Hc.
  - destruct (init_fresh s mq_enabled kw w Hl)
      as (h0 & w0 & Heq & (He & Hs & Hc) & _ & Hr & Hcs & _).
    rewrite Hinit in Heq. injection Heq as <- <-.
    split_and!; [done| | | |].
    + intros sig. simpl. rewrite Hr, outstanding_app, outstanding_cons. simpl.
      specialize (Hcnt sig). simpl in Hcnt.
      destruct (decide (_connection_signature s kw = sig)) as [<-|Hne].
      * rewrite lookup_insert_eq. rewrite Hl in Hcnt.
        rewrite decide_True by done. unfold outstanding at 2. simpl. lia.
      * rewrite lookup_insert_ne by done.
        rewrite decide_False by (intros [_ ?]; congruence).
        unfold outstanding at 2. simpl. rewrite !Nat.add_0_r. done.
    + intros d pc Hd. rewrite Hcs in Hd. rewrite Hr.
      apply lookup_app_Some in Hd as [Hd|[Hge Hd]].
      * pose proof (lookup_lt_Some _ _ _ Hd) as Hlt.
        destruct (Hopen d pc Hd) as [[H0 [m Hm]]|[H1 Hno]].
        -- left. split; [done|]. exists m.
           rewrite lookup_insert_ne; [done|]. intros Heq. rewrite <- Heq in Hm. congruence.
        -- right. split; [done|]. intros m Hm.
           apply lookup_insert_Some in Hm as [[Heq [= <- Hd']]|[_ Hm]]; [lia|].
           by apply (Hno m).
      * apply list_lookup_singleton_Some in Hd as [Hz <-]. simpl.
        left. split; [done|]. exists 1. rewrite lookup_insert_eq. f_equal. f_equal. lia.
    + intros i h' Hi. simpl.
      apply lookup_app_Some in Hi as [Hi|[_ Hi]].
      * destruct (Hreg i h' Hi) as [He' (m & d & Hm & Hd)]. split; [done|].
        destruct (Hkeep _ _ _ Hm) as [m' Hm']. by exists m', d.
      * apply list_lookup_singleton_Some in Hi as [_ [= <-]]. done.
    + intros i h' k Hi. simpl in Hi.
      apply lookup_app_Some in Hi as [Hi|[_ Hi]]; [by eapply Hen|].
      apply list_lookup_singleton_Some in Hi as [_ [= <- <-]]. by rewrite He, Hc.
Qed.

(** Opening a channel changes neither the registry nor the connections,
    and of the handle only its channels. *)
Lemma new_channel_frame h w c :
  enabled h = true → connection h = Some c →
  ∃ ch h' w', new_channel h w = Ok (ch, h', w') ∧
    connection_signature h' = connection_signature h ∧
    connection h' = connection h ∧ enabled h' = enabled h ∧
    _active_connections w' = _active_connections w ∧
    connections w' = connections w.
Proof.
  intros He Hc. unfold new_channel. rewrite He, Hc.
  eexists _, _, _. split; [reflexivity|]. done.
Qed.

Lemma channel_property_frame h w c :
  enabled h = true → connection h = Some c →
  ∃ ch h' w', channel h w = Ok (ch, h', w') ∧
    connection_signature h' = connection_signature h ∧
    connection h' = connection h ∧ enabled h' = enabled h ∧
    _active_connections w' = _active_connections w ∧
    connections w' = connections w.
Proof.
  intros He Hc. unfold channel.
  destruct (_channel h); [by eexists _, _, _|].
  destruct (new_channel_frame h w c He Hc) as (ch & h' & w' & -> & ? & ? & ? & ? & ?).
  simpl. eexists _, _, _. split; [reflexivity|]. done.
Qed.

(** The invariant looks at the registry, at the connections, and at the
    signature, connection and switch of each handle only. *)
Lemma process_inv_frame w hs w' i h h' k :
  process_inv {| proc_world := w; proc_handles := hs |} →
  hs !! i = Some (h, k) →
  connection_signature h' = connection_signature h →
  connection h' = connection h → enabled h' = enabled h →
  _active_connections w' = _active_connections w →
  connections w' = connections w →
  process_inv {| proc_world := w'; proc_handles := <[i := (h', k)]> hs |}.
Proof.
  intros (Hwf & Hcnt & Hopen & Hreg & Hen) Hi Hsig Hc He Hr Hcs.
  unfold process_inv. simpl in *. split_and!.
  - intros sig n c. rewrite Hr, Hcs. apply Hwf.
  - intros sig. simpl. rewrite Hr, (outstanding_insert_same sig hs i h h' k Hi Hsig).
    apply Hcnt.
  - intros c pc. rewrite Hr, Hcs. apply Hopen.
  - intros j hj Hj. simpl in *.
    destruct (decide (i = j)) as [<-|Hne].
    + rewrite list_lookup_insert_eq in Hj by (by eapply lookup_lt_Some).
      simplify_eq.
      destruct (Hreg i h Hi) as [He0 (n & c & Hn & Hc0)].
      split; [congruence|]. exists n, c. rewrite Hr, Hsig, Hc. done.
    + rewrite list_lookup_insert_ne in Hj by done.
      destruct (Hreg j hj Hj) as [He0 (n & c & Hn & Hc0)].
      split; [done|]. exists n, c. by rewrite Hr.
  - intros j hj kj Hj. simpl in *.
    destruct (decide (i = j)) as [<-|Hne].
    + rewrite list_lookup_insert_eq in Hj by (by eapply lookup_lt_Some).
      injection Hj as <- <-. rewrite He, Hc. by eapply Hen.
    + rewrite list_lookup_insert_ne in Hj by done. by eapply Hen.
Qed.

Lemma step_channel op i p :
  op = open_channel i ∨ op = default_channel i →
  process_inv p →
  ∃ p', handle_step s op p = Ok p' ∧ process_inv p' ∧
    ∀ j hj kj, proc_handles p' !! j = Some (hj, kj) →
      ∃ hj', proc_handles p !! j = Some (hj', kj).
Proof.
  intros Hop Hinv. destruct p as [w hs].
  destruct (hs !! i) as [[h k]|] eqn:Hi.
  - pose proof Hinv as (_ & _ & _ & _ & Hen).
    destruct (Hen i h k Hi) as [He [c Hc]].
    destruct Hop as [-> | ->]; simpl; rewrite Hi.
    + destruct (new_channel_frame h w c He Hc)
        as (ch & h' & w' & -> & Hs' & Hc' & He' & Hr & Hcs).
      simpl. eexists. split; [reflexivity|]. split.
      * by eapply process_inv_frame.
      * intros j hj kj Hj. simpl in *. destruct (decide (i = j)) as [<-|Hne].
        -- rewrite list_lookup_insert_eq in Hj by (by eapply lookup_lt_Some).
           injection Hj as <- <-. eauto.
        -- rewrite list_lookup_insert_ne in Hj by done. eauto.
    + destruct (channel_property_frame h w c He Hc)
        as (ch & h' & w' & -> & Hs' & Hc' & He' & Hr & Hcs).
      simpl. eexists. split; [reflexivity|]. split.
      * by eapply process_inv_frame.
      * intros j hj kj Hj. simpl in *. destruct (decide (i = j)) as [<-|Hne].
        -- rewrite list_lookup_insert_eq in Hj by (by eapply lookup_lt_Some).
           injection Hj as <- <-. eauto.
        -- rewrite list_lookup_insert_ne in Hj by done. eauto.
  - exists {| proc_world := w; proc_handles := hs |}.
    destruct Hop as [-> | ->]; simpl; rewrite Hi; eauto.
Qed.

(** The first close of a handle. *)
Lemma step_close_handle i h p :
  process_inv p →
  proc_handles p !! i = Some (h, 0%nat) →
  ∃ w', handle_step s (close_handle i) p
          = Ok {| proc_world := w'; proc_handles := <[i := (h, 1%nat)]> (proc_handles p) |} ∧
    process_inv {| proc_world := w'; proc_handles := <[i := (h, 1%nat)]> (proc_handles p) |}.
Proof.
  intros (Hwf & Hcnt & Hopen & Hreg & Hen) Hi. destruct p as [w hs].
  unfold counts_outstanding, outstanding_registered, handles_enabled, registered in *.
  simpl in *. rewrite Hi.
  destruct (Hreg i h Hi) as [He (n & c & Hn & Hc)].
  assert (Hsh : shares (connection_signature h) c h) by done.
  pose proof (Hcnt (connection_signature h)) as Hcount.
  cbn [proc_world proc_handles] in Hcount. rewrite Hn in Hcount. destruct Hcount as [Hcount Hpos].
  pose proof (outstanding_insert_closed (connection_signature h) hs i h Hi) as Hdec.
  rewrite decide_True in Hdec by done.
  assert (Hothers : ∀ sig, sig ≠ connection_signature h →
            outstanding sig (<[i := (h, 1%nat)]> hs) = outstanding sig hs).
  { intros sig Hne. pose proof (outstanding_insert_closed sig hs i h Hi) as Hd.
    rewrite decide_False in Hd by done. lia. }
  assert (Hlookup : ∀ j hj kj, <[i := (h, 1%nat)]> hs !! j = Some (hj, kj) →
            (j = i ∧ hj = h ∧ kj = 1%nat) ∨ (j ≠ i ∧ hs !! j = Some (hj, kj))).
  { intros j hj kj Hj. destruct (decide (i = j)) as [<-|Hne].
    - rewrite list_lookup_insert_eq in Hj by (by eapply lookup_lt_Some).
      left. by simplify_eq.
    - rewrite list_lookup_insert_ne in Hj by done. right. done. }
  destruct (decide (1 < n)) as [Hgt|Hle].
  - destruct (close_keeps _ c h w n Hsh Hn Hgt) as (w' & Hclose & Hr & Hcs).
    rewrite Hclose. simpl. exists w'. split; [done|].
    unfold process_inv, counts_outstanding, outstanding_registered, handles_enabled,
      registered. simpl. split_and!.
    + by eapply close_wf.
    + intros sig. simpl. rewrite Hr.
      destruct (decide (connection_signature h = sig)) as [<-|Hne].
      * rewrite lookup_insert_eq. lia.
      * rewrite lookup_insert_ne by done. rewrite Hothers by done. apply Hcnt.
    + intros d pc Hd. rewrite Hcs in Hd. rewrite Hr.
      destruct (Hopen d pc Hd) as [[H0 [m Hm]]|[H1 Hno]].
      * left. split; [done|].
        destruct (decide (connection_signature h = conn_params pc)) as [Heq|Hne].
        -- rewrite <- Heq in *. rewrite lookup_insert_eq. rewrite Hn in Hm.
           injection Hm as <- <-. eauto.
        -- rewrite lookup_insert_ne by done. eauto.
      * right. split; [done|]. intros m Hm.
        apply lookup_insert_Some in Hm as [[Heq [= <- <-]]|[_ Hm]].
        -- apply (Hno n). by rewrite <- Heq.
        -- by apply (Hno m).
    + intros j hj Hj. simpl in *.
      destruct (Hlookup j hj _ Hj) as [(_ & _ & ?)|[Hne Hj']]; [done|].
      destruct (Hreg j hj Hj') as [Hej (m & d & Hm & Hd)]. split; [done|].
      rewrite Hr. destruct (decide (connection_signature h = connection_signature hj))
        as [Heq|Hneq].
      * rewrite <- Heq in *. rewrite lookup_insert_eq. rewrite Hn in Hm.
        injection Hm as <- <-. by exists (n - 1), c.
      * rewrite lookup_insert_ne by done. by exists m, d.
    + intros j hj kj Hj. simpl in *.
      destruct (Hlookup j hj kj Hj) as [(_ & -> & _)|[_ Hj']]; by eapply Hen.
  - assert (n = 1) as -> by lia.
    destruct (close_last _ c h w 1 Hsh Hn ltac:(lia)) as (w' & Hclose & Hr & Hcs).
    rewrite Hclose. simpl. exists w'. split; [done|].
    assert (Hzero : outstanding (connection_signature h) (<[i := (h, 1%nat)]> hs) = 0%nat)
      by lia.
    pose proof (Hwf _ _ _ Hn) as Hpc.
    destruct (connections w !! c) as [pc0|] eqn:Hpc0; [|done].
    simpl in Hpc. injection Hpc as Hparams.
    assert (Hopen0 : conn_close_calls pc0 = 0%nat).
    { destruct (Hopen c pc0 Hpc0) as [[H0 _]|[_ Hno]]; [done|].
      exfalso. apply (Hno 1). by rewrite Hparams. }
    unfold process_inv, counts_outstanding, outstanding_registered, handles_enabled,
      registered. simpl. split_and!.
    + by eapply close_wf.
    + intros sig. simpl. rewrite Hr.
      destruct (decide (connection_signature h = sig)) as [<-|Hne].
      * by rewrite lookup_delete_eq.
      * rewrite lookup_delete_ne by done. rewrite Hothers by done. apply Hcnt.
    + intros d pc Hd. rewrite Hcs in Hd. rewrite Hr.
      rewrite list_lookup_alter in Hd.
      destruct (decide (c = d)) as [<-|Hcd].
      * rewrite Hpc0 in Hd. simpl in Hd. injection Hd as <-. simpl.
        right. split; [by rewrite Hopen0|]. intros m.
        rewrite Hparams, lookup_delete_eq. done.
      * destruct (Hopen d pc Hd) as [[H0 [m Hm]]|[H1 Hno]].
        -- left. split; [done|]. exists m. rewrite lookup_delete_ne; [done|].
           intros Heq. rewrite <- Heq, Hn in Hm. congruence.
        -- right. split; [done|]. intros m Hm.
           apply lookup_delete_Some in Hm as [_ Hm]. by apply (Hno m).
    + intros j hj Hj. simpl in *.
      destruct (Hlookup j hj _ Hj) as [(_ & _ & ?)|[Hne Hj']]; [done|].
      destruct (Hreg j hj Hj') as [Hej (m & d & Hm & Hd)]. split; [done|].
      rewrite Hr. exists m, d. rewrite lookup_delete_ne; [done|].
      intros Heq. symmetry in Heq. revert Heq.
      by apply (outstanding_zero _ _ j hj Hzero).
    + intros j hj kj Hj. simpl in *.
      destruct (Hlookup j hj kj Hj) as [(_ & -> & _)|[_ Hj']]; by eapply Hen.
Qed.

Lemma handle_steps_inv ops : ∀ p,
  process_inv p →
  closable ops (proc_handles p) →
  ∃ p', handle_steps s ops p = Ok p' ∧ process_inv p'.
Proof.
  induction ops as [|op ops IH]; intros p Hinv [Hnd Hopen]; [by exists p|].
  cbn [handle_steps]. destruct op as [kw|i|i|i].
  - destruct (step_open_handle kw p Hinv) as (p1 & Hstep & Hinv1).
    rewrite Hstep. simpl. apply IH; [done|]. split; [done|].
    intros j hj kj Hj Hl. simpl in Hstep.
    destruct (__init__ s kw (proc_world p)) as [h w']. injection Hstep as <-.
    simpl in Hl. apply lookup_app_Some in Hl as [Hl|[_ Hl]]; [by eapply Hopen|].
    by apply list_lookup_singleton_Some in Hl as [_ [= _ <-]].
  - destruct (step_channel (open_channel i) i p (or_introl eq_refl) Hinv)
      as (p1 & Hstep & Hinv1 & Hold).
    rewrite Hstep. simpl. apply IH; [done|]. split; [done|].
    intros j hj kj Hj Hl. destruct (Hold j hj kj Hl) as [hj' Hl']. by eapply Hopen.
  - destruct (step_channel (default_channel i) i p (or_intror eq_refl) Hinv)
      as (p1 & Hstep & Hinv1 & Hold).
    rewrite Hstep. simpl. apply IH; [done|]. split; [done|].
    intros j hj kj Hj Hl. destruct (Hold j hj kj Hl) as [hj' Hl']. by eapply Hopen.
  - simpl in Hnd. apply NoDup_cons in Hnd as [Hi Hnd].
    destruct (proc_handles p !! i) as [[h k]|] eqn:Hl.
    + assert (k = 0%nat) as -> by (eapply Hopen; [left|done]).
      destruct (step_close_handle i h p Hinv Hl) as (w' & Hstep & Hinv1).
      rewrite Hstep. simpl.
      apply IH; [done|]. split; [done|]. simpl.
      intros j hj kj Hj Hlj.
      rewrite list_lookup_insert_ne in Hlj by (intros <-; done).
      eapply Hopen; [by right|done].
    + simpl. rewrite Hl. simpl. apply IH; [done|]. split; [done|].
      intros j hj kj Hj Hlj. eapply Hopen; [by right|done].
Qed.

Lemma process_inv_initial : process_inv initial_process.
Proof.
  unfold process_inv, counts_outstanding, open_iff_registered, outstanding_registered,
    handles_enabled. simpl. split_and!; first [done | apply registry_wf_initial].
Qed.

End process_facts.

(** X1. A process that runs with messaging enabled and closes no handle
    twice: whatever the order in which it builds handles, opens channels
    and closes handles, nothing raises; the count of every registry entry
    is the number of handles of that signature not yet closed; and a
    physical connection has had [close()] invoked at most once, and not at
    all exactly as long as a handle not yet closed holds it. *)
Theorem refcount_tracks_outstanding (s : settings) (ops : list handle_op) :
  getattr (ENABLE_MQ s) false = true →
  NoDup (closes ops) →
  ∃ p, handle_steps s ops initial_process = Ok p ∧
    counts_outstanding p ∧
    ∀ c pc, connections (proc_world p) !! c = Some pc →
      (conn_close_calls pc ≤ 1)%nat ∧
      (conn_close_calls pc = 0%nat ↔
       ∃ i h, proc_handles p !! i = Some (h, 0%nat) ∧ connection h = Some c).
Proof.
  intros Hmq Hnd.
  destruct (handle_steps_inv s Hmq ops initial_process (process_inv_initial))
    as (p & Hrun & Hwf & Hcnt & Hopen & Hreg & Hen).
  { split; [done|]. intros i h k _ Hl. done. }
  exists p. split_and!; [done|done|].
  intros c pc Hc. destruct (Hopen c pc Hc) as [[H0 [n Hn]]|[H1 Hno]].
  - split; [lia|]. split; [|done]. intros _.
    pose proof (Hcnt (conn_params pc)) as Hcount. rewrite Hn in Hcount.
    destruct Hcount as [Hcount Hpos].
    destruct (outstanding_pos (conn_params pc) (proc_handles p)) as (i & h & Hi & Hs);
      [lia|].
    exists i, h. split; [done|].
    destruct (Hreg i h Hi) as [_ (m & d & Hm & Hd)].
    rewrite Hs, Hn in Hm. by injection Hm as <- <-.
  - split; [lia|]. split; [lia|]. intros (i & h & Hi & Hh). exfalso.
    destruct (Hreg i h Hi) as [_ (m & d & Hm & Hd)].
    rewrite Hh in Hd. injection Hd as <-.
    pose proof (Hwf _ _ _ Hm) as Hp. rewrite Hc in Hp. simpl in Hp.
    injection Hp as Hp. apply (Hno m). by rewrite Hp.
Qed.

Lemma refcount_tracks_outstanding_witness :
  ∃ p, handle_steps settings_default three_handles initial_process = Ok p ∧
       counts_outstanding p.
Proof.
  destruct (refcount_tracks_outstanding settings_default three_handles eq_refl)
    as (p & Hrun & Hcnt & _).
  { apply (bool_decide_unpack _). vm_compute. reflexivity. }
  exact (ex_intro _ p (conj Hrun Hcnt)).
Defined.

Lemma init_counts_positive s kw w :
  counts_positive w → registry_wf w →
  counts_positive (__init__ s kw w).2 ∧ registry_wf (__init__ s kw w).2.
Proof.
  intros Hpos Hwf. destruct (getattr (ENABLE_MQ s) false) eqn:Hmq.
  - destruct (__init__ s kw w) as [h w'] eqn:Hinit. simpl.
    split; [|by destruct (init_wf s Hmq kw w h w' Hwf Hinit)].
    destruct (_active_connections w !! _connection_signature s kw) as [[n c]|] eqn:Hl.
    + destruct (init_existing s Hmq kw w n c Hl) as (h0 & w0 & Heq & _ & _ & Hr & _).
      rewrite Hinit in Heq. injection Heq as <- <-.
      intros sig m d. rewrite Hr. intros Hm.
      apply lookup_insert_Some in Hm as [[_ [= <- _]]|[_ Hm]]; [|by eapply Hpos].
      specialize (Hpos _ _ _ Hl). lia.
    + destruct (init_fresh s Hmq kw w Hl) as (h0 & w0 & Heq & _ & _ & Hr & _).
      rewrite Hinit in Heq. injection Heq as <- <-.
      intros sig m d. rewrite Hr. intros Hm.
      apply lookup_insert_Some in Hm as [[_ [= <- _]]|[_ Hm]]; [lia|by eapply Hpos].
  - unfold __init__. rewrite Hmq. done.
Qed.

Lemma close_counts_positive h w w' :
  counts_positive w → close h w = Ok w' → counts_positive w'.
Proof.
  unfold close. cbv zeta. intros Hpos Hclose.
  destruct (close_channels_frame (_channels h) w) as [Hr Hcs].
  destruct (enabled h).
  - rewrite Hr in Hclose.
    destruct (_active_connections w !! connection_signature h) as [[n c]|] eqn:Hl;
      [|done].
    destruct (n - 1 <=? 0) eqn:Hle.
    + destruct (connection h) as [c'|]; [|done]. injection Hclose as <-.
      intros sig m d. world_simpl. rewrite delete_insert_eq.
      intros Hsig. apply lookup_delete_Some in Hsig as [_ Hsig]. by eapply Hpos.
    + apply Z.leb_gt in Hle. injection Hclose as <-. intros sig m d. world_simpl.
      intros Hsig. apply lookup_insert_Some in Hsig as [[_ [= <- _]]|[_ Hsig]];
        [lia|by eapply Hpos].
  - injection Hclose as <-. intros sig m d. rewrite Hr. apply Hpos.
Qed.

Lemma new_channel_world h w ch h' w' :
  new_channel h w = Ok (ch, h', w') →
  _active_connections w' = _active_connections w ∧ connections w' = connections w.
Proof.
  unfold new_channel. intros H.
  destruct (enabled h); [|by injection H as <- <- <-].
  destruct (connection h); [|done]. by injection H as <- <- <-.
Qed.

Lemma channel_world h w ch h' w' :
  channel h w = Ok (ch, h', w') →
  _active_connections w' = _active_connections w ∧ connections w' = connections w.
Proof.
  unfold channel. intros H.
  destruct (_channel h); [by injection H as <- <- <-|].
  destruct (new_channel h w) as [[[ch0 h0] w0]|e] eqn:Hn; [|done].
  simpl in H. injection H as <- <- <-. by eapply new_channel_world.
Qed.

Lemma handle_step_counts s op p p' :
  counts_positive (proc_world p) → registry_wf (proc_world p) →
  handle_step s op p = Ok p' →
  counts_positive (proc_world p') ∧ registry_wf (proc_world p').
Proof.
  intros Hpos Hwf Hstep. destruct op as [kw|i|i|i]; simpl in Hstep.
  - pose proof (init_counts_positive s kw (proc_world p) Hpos Hwf) as Hinit.
    destruct (__init__ s kw (proc_world p)) as [h w']. by injection Hstep as <-.
  - destruct (proc_handles p !! i) as [[h k]|]; [|by injection Hstep as <-].
    destruct (new_channel h (proc_world p)) as [[[ch h'] w']|e] eqn:Hn; [|done].
    simpl in Hstep. injection Hstep as <-. simpl.
    apply new_channel_world in Hn as [Hr Hcs].
    split; intros sig n c; rewrite Hr, ?Hcs; [apply Hpos|apply Hwf].
  - destruct (proc_handles p !! i) as [[h k]|]; [|by injection Hstep as <-].
    destruct (channel h (proc_world p)) as [[[ch h'] w']|e] eqn:Hn; [|done].
    simpl in Hstep. injection Hstep as <-. simpl.
    apply channel_world in Hn as [Hr Hcs].
    split; intros sig n c; rewrite Hr, ?Hcs; [apply Hpos|apply Hwf].
  - destruct (proc_handles p !! i) as [[h k]|]; [|by injection Hstep as <-].
    destruct (close h (proc_world p)) as [w'|e] eqn:Hc; [|done].
    simpl in Hstep. injection Hstep as <-. simpl.
    split; [by eapply close_counts_positive|by eapply close_wf].
Qed.

Lemma handle_steps_counts s ops : ∀ p p',
  counts_positive (proc_world p) → registry_wf (proc_world p) →
  handle_steps s ops p = Ok p' →
  counts_positive (proc_world p') ∧ registry_wf (proc_world p').
Proof.
  induction ops as [|op ops IH]; intros p p' Hpos Hwf Hrun; simpl in Hrun.
  - by injection Hrun as <-.
  - destruct (handle_step s op p) as [p1|e] eqn:Hstep; [|done]. simpl in Hrun.
    destruct (handle_step_counts s op p p1 Hpos Hwf Hstep) as [Hpos1 Hwf1].
    by eapply IH.
Qed.

(** X2. Whatever a process does with its handles, in any order, closing a
    handle twice included, and whatever the settings: as long as nothing
    has raised, every count in the registry is at least one (an entry
    whose count reaches zero is deleted at once) and every entry points at
    a physical connection that was opened with the entry's signature. *)
Theorem registry_counts_positive (s : settings) (ops : list handle_op) (p : process) :
  handle_steps s ops initial_process = Ok p →
  counts_positive (proc_world p) ∧ registry_wf (proc_world p).
Proof.
  apply handle_steps_counts; [|apply registry_wf_initial].
  intros sig n c Hl. simpl in Hl. by rewrite lookup_empty in Hl.
Qed.

Lemma registry_counts_positive_witness :
  is_Ok (handle_steps settings_default closed_twice initial_process) = true ∧
  ∀ p, handle_steps settings_default closed_twice initial_process = Ok p →
    counts_positive (proc_world p).
Proof.
  split; [vm_compute; reflexivity|].
  intros p Hrun.
  exact (proj1 (registry_counts_positive settings_default closed_twice p Hrun)).
Defined.

(** ** Channels of a handle *)

Lemma close_channels_calls chs : ∀ w,
  calls (close_channels chs w) = calls w ++ ((λ ch, (ch, channel_close)) <$> chs) ∧
  channels (close_channels chs w) = channels w.
Proof.
  unfold close_channels.
  induction chs as [|ch chs IH]; intros w; simpl.
  - by rewrite app_nil_r.
  - destruct (IH (channel_call ch channel_close w)) as [-> ->]. simpl.
    by rewrite <- app_assoc.
Qed.

Lemma close_calls_channels h w w' :
  close h w = Ok w' →
  calls w' = calls w ++ ((λ ch, (ch, channel_close)) <$> _channels h) ∧
  channels w' = channels w.
Proof.
  unfold close. cbv zeta. intros Hclose.
  destruct (close_channels_calls (_channels h) w) as [Hc Hch].
  destruct (enabled h); [|by injection Hclose as <-].
  destruct (_active_connections (close_channels (_channels h) w) !! connection_signature h)
    as [[n c]|]; [|done].
  destruct (n - 1 <=? 0).
  - destruct (connection h); [|done]. by injection Hclose as <-.
  - by injection Hclose as <-.
Qed.

Lemma new_channels_spec n : ∀ h w c,
  enabled h = true → connection h = Some c →
  ∃ h' w', new_channels n h w = Ok (h', w') ∧
    enabled h' = true ∧ connection h' = Some c ∧
    connection_signature h' = connection_signature h ∧
    _channels h' = _channels h ++ seq (length (channels w)) n ∧
    channels w' = channels w ++ replicate n c ∧
    calls w' = calls w ∧ _active_connections w' = _active_connections w.
Proof.
  induction n as [|n IH]; intros h w c He Hc; simpl.
  - exists h, w. by rewrite !app_nil_r.
  - set (h1 := {| connection_signature := connection_signature h;
                  connection := Some c; enabled := true;
                  _channels := _channels h ++ [length (channels w)];
                  _channel := _channel h |}).
    set (w1 := set_channels (channels w ++ [c]) w).
    assert (Hn : new_channel h w = Ok (Some (length (channels w)), h1, w1))
      by (unfold new_channel; rewrite He, Hc; reflexivity).
    rewrite Hn. cbn [mbind res_bind].
    destruct (IH h1 w1 c eq_refl eq_refl)
      as (h' & w' & Hrun & He' & Hc' & Hs' & Hchs & Hch & Hcalls & Hr).
    rewrite Hrun. exists h', w'. split; [done|]. unfold h1, w1 in *. simpl in *.
    rewrite Hchs, Hch, length_app. simpl.
    rewrite <- !app_assoc. simpl. rewrite Nat.add_1_r. done.
Qed.

(** X3. Every channel opened through an enabled handle is a new channel
    of the handle's connection, and the handle's [close()] calls [close]
    on each of them, once, in the order they were opened, whatever else
    happened on the transport in between. *)
Theorem close_closes_owned_channels (n : nat) (h : AMQPConnection.t) (w : world) (c : nat) :
  enabled h = true →
  connection h = Some c →
  _channels h = [] →
  ∃ h' w1, new_channels n h w = Ok (h', w1) ∧
    _channels h' = seq (length (channels w)) n ∧
    channels w1 = channels w ++ replicate n c ∧
    ∀ w2 w3,
      close h' w2 = Ok w3 →
      calls w3 = calls w2 ++ ((λ ch, (ch, channel_close)) <$> seq (length (channels w)) n).
Proof.
  intros He Hc Hchs.
  destruct (new_channels_spec n h w c He Hc)
    as (h' & w1 & Hrun & _ & _ & _ & Hchs' & Hch & _).
  exists h', w1. rewrite Hchs in Hchs'. simpl in Hchs'.
  split_and!; [done|done|done|].
  intros w2 w3 Hclose. apply close_calls_channels in Hclose as [-> _].
  by rewrite Hchs'.
Qed.

Lemma close_closes_owned_channels_witness :
  ∃ h' w1, new_channels 2 fresh_handle initial_world = Ok (h', w1) ∧
           _channels h' = [0; 1]%nat.
Proof.
  destruct (close_closes_owned_channels 2 fresh_handle initial_world 0
              eq_refl eq_refl eq_refl)
    as (h' & w1 & Hrun & Hchs & _).
  exact (ex_intro _ h' (ex_intro _ w1 (conj Hrun Hchs))).
Defined.

(** X4. The default channel belongs to the handle, not to the connection:
    the first read of the [channel] property of an enabled handle opens a
    new channel on the handle's connection and records it among the
    handle's channels; every later read returns that channel and opens
    nothing; and two handles that share one physical connection get two
    different default channels. *)
Theorem default_channel_per_handle (h1 h2 : AMQPConnection.t) (w : world) (c : nat) :
  enabled h1 = true → connection h1 = Some c → _channel h1 = None →
  enabled h2 = true → connection h2 = Some c → _channel h2 = None →
  ∃ ch1 ch2 h1' h2' w1 w2,
    channel h1 w = Ok (Some ch1, h1', w1) ∧
    channel h2 w1 = Ok (Some ch2, h2', w2) ∧
    ch1 ≠ ch2 ∧
    channels w2 !! ch1 = Some c ∧ channels w2 !! ch2 = Some c ∧
    _channels h1' = _channels h1 ++ [ch1] ∧ _channels h2' = _channels h2 ++ [ch2] ∧
    ∀ w', channel h1' w' = Ok (Some ch1, h1', w') ∧
          channel h2' w' = Ok (Some ch2, h2', w').
Proof.
  intros He1 Hc1 Hn1 He2 Hc2 Hn2.
  unfold channel, new_channel. rewrite Hn1, He1, Hc1, Hn2, He2, Hc2. simpl.
  eexists _, _, _, _, _, _. split; [reflexivity|]. split; [reflexivity|].
  simpl. rewrite length_app. simpl. split_and!.
  - lia.
  - rewrite lookup_app_l by (rewrite length_app; simpl; lia).
    by rewrite lookup_app_r, Nat.sub_diag by done.
  - rewrite lookup_app_r by (rewrite length_app; simpl; lia).
    rewrite length_app. simpl.
    by replace (length (channels w) + 1 - (length (channels w) + 1))%nat with 0%nat by lia.
  - done.
  - done.
  - done.
Qed.

Lemma default_channel_per_handle_witness :
  ∃ ch1 ch2 h1' h2' w1 w2,
    channel fresh_handle initial_world = Ok (Some ch1, h1', w1) ∧
    channel fresh_handle w1 = Ok (Some ch2, h2', w2) ∧ ch1 ≠ ch2.
Proof.
  destruct (default_channel_per_handle fresh_handle fresh_handle initial_world 0
              eq_refl eq_refl eq_refl eq_refl eq_refl eq_refl)
    as (ch1 & ch2 & h1' & h2' & w1 & w2 & H1 & H2 & Hne & _).
  exists ch1, ch2, h1', h2', w1, w2. split; [exact H1|]. split; [exact H2|exact Hne].
Defined.

(** ** Equality of handles *)

Lemma init_signature s kw w :
  connection_signature (__init__ s kw w).1 = _connection_signature s kw.
Proof. unfold __init__. by destruct (getattr (ENABLE_MQ s) false). Qed.

(** X5. Two handles compare equal exactly when the calls that built them
    have the same normalized parameters, whether messaging is enabled or
    not, whatever the state of the registry at each construction and
    whatever physical connection each holds; a handle never equals an
    object that has no connection signature. *)
Theorem handle_equality (s : settings) (kw1 kw2 : gmap string value) (w1 w2 : world) :
  let h1 := (__init__ s kw1 w1).1 in
  let h2 := (__init__ s kw2 w2).1 in
  (__eq__ h1 (Some (connection_signature h2)) = true ↔
   ∀ field, normalized_kwargs s kw1 !! field = normalized_kwargs s kw2 !! field) ∧
  __eq__ h1 (Some (connection_signature h2)) = __eq__ h2 (Some (connection_signature h1)) ∧
  __eq__ h1 (Some (connection_signature h1)) = true ∧
  __eq__ h1 None = false.
Proof.
  intros h1 h2. unfold __eq__, h1, h2. rewrite !init_signature. split_and!.
  - rewrite bool_decide_eq_true. split.
    + intros [= Heq] field. by rewrite (signature_inj _ _ _ Heq).
    + intros Heq. f_equal. unfold _connection_signature. f_equal. f_equal.
      by apply map_eq.
  - apply bool_decide_ext. split; congruence.
  - by apply bool_decide_eq_true.
  - done.
Qed.
